(** * Client websocket transport (client/comms/wsconn.go)

    A shallow embedding of the [wsConn] type and of the goroutines it runs,
    followed by the properties of the transport's specification.

    - Part 1: errors, their classification, and the certificate pattern.
    - Part 2: the connection record and the operations of wsconn.go as
      functions on it (one function per critical section or method).
    - Part 3: the goroutines as a transition system whose steps are those
      functions, scheduled in any order.
    - Part 4: theorems. *)

From Stdlib Require Import Ascii String.
From stdpp Require Import gmap list strings.

Local Open Scope Z_scope.
Local Open Scope string_scope.

(* ===================================================================== *)
(** * Part 1: errors                                                      *)
(* ===================================================================== *)

Module Regexp.

(** The fragment of Go's regexp syntax that [invalidCertRegexp] uses,
    with the two constants derivatives need. *)
Inductive regex : Type :=
| NoMatch                      (* matches no string *)
| EmptyMatch                   (* matches the empty string *)
| Lit (c : ascii)              (* a literal byte *)
| Dot                          (* [.] : any byte but a newline *)
| Cat (r1 r2 : regex)
| Alt (r1 r2 : regex)
| Star (r : regex).

Definition newline : ascii := ascii_of_nat 10.

(** What it means for a regex to match a whole string. *)
Inductive Matches : regex -> list ascii -> Prop :=
| MEmpty : Matches EmptyMatch []
| MLit c : Matches (Lit c) [c]
| MDot c : c <> newline -> Matches Dot [c]
| MCat r1 r2 s1 s2 :
    Matches r1 s1 -> Matches r2 s2 -> Matches (Cat r1 r2) (s1 ++ s2)
| MAltL r1 r2 s : Matches r1 s -> Matches (Alt r1 r2) s
| MAltR r1 r2 s : Matches r2 s -> Matches (Alt r1 r2) s
| MStar0 r : Matches (Star r) []
| MStarS r s1 s2 :
    Matches r s1 -> Matches (Star r) s2 -> Matches (Star r) (s1 ++ s2).

(** The matcher, by Brzozowski derivatives. *)
Fixpoint nullable (r : regex) : bool :=
  match r with
  | NoMatch | Lit _ | Dot => false
  | EmptyMatch | Star _ => true
  | Cat a b => nullable a && nullable b
  | Alt a b => nullable a || nullable b
  end.

Fixpoint deriv (c : ascii) (r : regex) : regex :=
  match r with
  | NoMatch | EmptyMatch => NoMatch
  | Lit d => if Ascii.eqb c d then EmptyMatch else NoMatch
  | Dot => if Ascii.eqb c newline then NoMatch else EmptyMatch
  | Cat a b =>
      if nullable a then Alt (Cat (deriv c a) b) (deriv c b)
      else Cat (deriv c a) b
  | Alt a b => Alt (deriv c a) (deriv c b)
  | Star a => Cat (deriv c a) (Star a)
  end.

(** Does some prefix of [s] match? *)
Fixpoint match_prefix (r : regex) (s : list ascii) : bool :=
  nullable r ||
  match s with
  | [] => false
  | c :: s' => match_prefix (deriv c r) s'
  end.

(** Does a match start at some position of [s]?  An unanchored search,
    which is what the MatchString method of Go's regexp reports. *)
Fixpoint match_anywhere (r : regex) (s : list ascii) : bool :=
  match_prefix r s ||
  match s with
  | [] => false
  | _ :: s' => match_anywhere r s'
  end.

Definition MatchString (r : regex) (s : string) : bool :=
  match_anywhere r (list_ascii_of_string s).

(** A literal string as a regex. *)
Fixpoint lit_list (l : list ascii) : regex :=
  match l with
  | [] => EmptyMatch
  | c :: rest => Cat (Lit c) (lit_list rest)
  end.

Definition literal (s : string) : regex := lit_list (list_ascii_of_string s).

End Regexp.

(** [strings.Contains]: is [sub] a substring of [s]? *)
Fixpoint has_prefix (sub s : list ascii) : bool :=
  match sub, s with
  | [], _ => true
  | _ :: _, [] => false
  | a :: sub', b :: s' => Ascii.eqb a b && has_prefix sub' s'
  end.

Fixpoint contains_at_some (sub s : list ascii) : bool :=
  has_prefix sub s ||
  match s with
  | [] => false
  | _ :: s' => contains_at_some sub s'
  end.

Definition strings_Contains (s sub : string) : bool :=
  contains_at_some (list_ascii_of_string sub) (list_ascii_of_string s).

(** The package-level error values of wsconn.go. *)
Inductive sentinel : Type := ErrInvalidCert | ErrCertRequired.

Global Instance sentinel_eq_dec : EqDecision sentinel.
Proof. solve_decision. Defined.

Definition sentinel_text (s : sentinel) : string :=
  match s with
  | ErrInvalidCert => "invalid certificate"
  | ErrCertRequired => "certificate required"
  end.

(** A Go error, as far as wsconn.go inspects one: the dynamic types along
    its [Unwrap] chain, outermost first, and the text [Error()] returns. *)
Inductive errlayer : Type :=
| X509CertificateInvalid
| X509UnknownAuthority
| X509Hostname
| NetOpError (op : string) (inner : string) (timeout : bool)
| NetError (timeout : bool)
| WsCloseError (code : Z)
| JsonUnmarshalType
| Sentinel (s : sentinel)
| DexError
| OtherError.

Record goerror : Type := GoError {
  err_chain : list errlayer;
  err_text : string
}.

Global Instance errlayer_eq_dec : EqDecision errlayer.
Proof. solve_decision. Defined.

Global Instance goerror_eq_dec : EqDecision goerror.
Proof. solve_decision. Defined.

(** [errors.As] for the three x509 targets, and [errors.Is] for a
    sentinel. *)
Definition errors_As_x509 (target : errlayer) (e : goerror) : bool :=
  existsb (fun l => bool_decide (l = target)) (err_chain e).

Definition errors_Is (e : goerror) (s : sentinel) : bool :=
  existsb (fun l => bool_decide (l = Sentinel s)) (err_chain e).

(** Modelled from the spec: [dex.NewError] (package dex, not part of the
    sources at hand) pairs a sentinel with a detail string; the result
    unwraps to the sentinel, so the error surfaces as that class. *)
Definition dex_NewError (s : sentinel) (detail : string) : goerror :=
  GoError [DexError; Sentinel s] (sentinel_text s +:+ ": " +:+ detail).

(** [invalidCertRegexp]:
    [.*(unknown authority|not standards compliant|not trusted)]. *)
Definition certPatternAlternatives : Regexp.regex :=
  Regexp.Alt (Regexp.literal "unknown authority")
    (Regexp.Alt (Regexp.literal "not standards compliant")
       (Regexp.literal "not trusted")).

Definition invalidCertRegexp : Regexp.regex :=
  Regexp.Cat (Regexp.Star Regexp.Dot) certPatternAlternatives.

Definition isErrorInvalidCert (err : goerror) : bool :=
  errors_As_x509 X509CertificateInvalid err || errors_As_x509 X509Hostname err ||
  errors_As_x509 X509UnknownAuthority err ||
  Regexp.MatchString invalidCertRegexp (err_text err).

(* ===================================================================== *)
(** * Part 2: the connection and its operations                           *)
(* ===================================================================== *)

(** Durations are int64 nanoseconds, as in package time. *)
Definition time_Second : Z := 1000000000.
Definition time_Minute : Z := 60 * time_Second.

Definition readBuffSize : nat := 128.
Definition writeWait : Z := time_Second * 3.
Definition reconnectInterval : Z := 5 * time_Second.
Definition maxReconnectInterval : Z := time_Minute.
Definition DefaultResponseTimeout : Z := time_Minute.

Inductive ConnectionStatus : Type := Disconnected | Connected | InvalidCert.

Global Instance ConnectionStatus_eq_dec : EqDecision ConnectionStatus.
Proof. solve_decision. Defined.

(** Modelled from the spec: the message envelope of package msgjson (not
    part of the sources at hand): a type discriminator, a route, a 64-bit
    numeric ID and a payload. *)
Inductive MessageType : Type :=
  InvalidMessageType | Request | Response | Notification.

Global Instance MessageType_eq_dec : EqDecision MessageType.
Proof. solve_decision. Defined.

Record Message : Type := mkMessage {
  Type_ : MessageType;
  Route : string;
  ID : N;
  Payload : string
}.

Abbreviation bytes := string (only parsing).
Abbreviation sockid := nat (only parsing).     (* names a websocket.Conn *)
Abbreviation timerid := nat (only parsing).    (* names a time.Timer *)

(** The caller's closures are opaque to the transport.  One request call
    passes a response callback and an expire function; a [token] names
    that pair, and running either is recorded in the trace. *)
Abbreviation token := nat (only parsing).

Record responseHandler : Type := mkHandler {
  expiration : timerid;
  f : token;
  abort : token
}.

Record WsCfg : Type := mkCfg {
  Cert : bytes;
  ReconnectSync : bool;          (* is the hook non-nil? *)
  ConnectEventFunc : bool;       (* is the hook non-nil? *)
  RawHandler : bool;             (* is the handler non-nil? *)
  DisableAutoReconnect : bool
}.

(** What a [time.AfterFunc] timer runs when it fires. *)
Inductive timerFunc : Type :=
| DoExpire (id : N) (tok : token)   (* the closure logReq builds *)
| PostReconnect.                    (* conn.reconnectCh <- struct{}{} *)

Inductive timerState : Type := Armed | Stopped | Fired.

Record timer : Type := mkTimer {
  t_func : timerFunc;
  t_delay : Z;
  t_state : timerState
}.

(** Effects that leave the connection, newest first in the trace.
    [EvLogReq], [EvTimerStop], [EvShutdownStatus] and [EvShutdownSocket]
    record calls that have no effect outside; they are there to state
    orderings. *)
Inductive event : Type :=
| EvLogReq (id : N) (tok : token)
| EvCallback (tok : token) (msg : Message)   (* handler.f(msg) *)
| EvExpire (tok : token)                     (* expire(), by the timer *)
| EvAbort (tok : token)                      (* h.abort(), by the drain *)
| EvReturn (tok : token) (err : option goerror)
| EvStatusHook (s : ConnectionStatus)
| EvWrite (sock : sockid) (b : bytes)
| EvSocketClose (sock : sockid)
| EvCancel
| EvCloseReadCh
| EvTimerStop (t : timerid)
| EvShutdownStatus
| EvShutdownSocket (sock : option sockid)
| EvReconnectSync
| EvRawHandler (b : bytes)
| EvLog (s : string).

(** The fields of [wsConn] that the operations read or write, and the
    runtime objects they create: timers, reader goroutines, the trace. *)
Record wsConn : Type := mkConn {
  connectionStatus : ConnectionStatus;
  ws : option sockid;
  respHandlers : gmap N responseHandler;
  readCh : list Message;       (* buffered messages, oldest first *)
  readChCloses : nat;          (* how often close(readCh) ran *)
  reconnectCh : nat;           (* buffered triggers, capacity 1 *)
  cancelled : bool;            (* ctxInternal.Err() != nil *)
  timers : list timer;
  readers : nat;               (* read loops blocked in a read *)
  trace : list event
}.

Definition with_status v c :=
  mkConn v (ws c) (respHandlers c) (readCh c) (readChCloses c)
    (reconnectCh c) (cancelled c) (timers c) (readers c) (trace c).
Definition with_ws v c :=
  mkConn (connectionStatus c) v (respHandlers c) (readCh c) (readChCloses c)
    (reconnectCh c) (cancelled c) (timers c) (readers c) (trace c).
Definition with_respHandlers v c :=
  mkConn (connectionStatus c) (ws c) v (readCh c) (readChCloses c)
    (reconnectCh c) (cancelled c) (timers c) (readers c) (trace c).
Definition with_readCh v c :=
  mkConn (connectionStatus c) (ws c) (respHandlers c) v (readChCloses c)
    (reconnectCh c) (cancelled c) (timers c) (readers c) (trace c).
Definition with_readChCloses v c :=
  mkConn (connectionStatus c) (ws c) (respHandlers c) (readCh c) v
    (reconnectCh c) (cancelled c) (timers c) (readers c) (trace c).
Definition with_reconnectCh v c :=
  mkConn (connectionStatus c) (ws c) (respHandlers c) (readCh c)
    (readChCloses c) v (cancelled c) (timers c) (readers c) (trace c).
Definition with_cancelled v c :=
  mkConn (connectionStatus c) (ws c) (respHandlers c) (readCh c)
    (readChCloses c) (reconnectCh c) v (timers c) (readers c) (trace c).
Definition with_timers v c :=
  mkConn (connectionStatus c) (ws c) (respHandlers c) (readCh c)
    (readChCloses c) (reconnectCh c) (cancelled c) v (readers c) (trace c).
Definition with_readers v c :=
  mkConn (connectionStatus c) (ws c) (respHandlers c) (readCh c)
    (readChCloses c) (reconnectCh c) (cancelled c) (timers c) v (trace c).
Definition emit (e : event) c :=
  mkConn (connectionStatus c) (ws c) (respHandlers c) (readCh c)
    (readChCloses c) (reconnectCh c) (cancelled c) (timers c) (readers c)
    (e :: trace c).

(** [NewWsConn]: no socket, status zero (Disconnected), empty registry
    and channels. *)
Definition NewWsConn : wsConn :=
  mkConn Disconnected None ∅ [] 0 0 false [] 0 [].

(** A Go panic ends the program; the operations that can dereference
    [conn.ws] return a [result]. *)
Inductive result (A : Type) : Type :=
| Ok (a : A)
| Panic (reason : string).
Arguments Ok {A} a.
Arguments Panic {A} reason.

Definition bind {A B} (r : result A) (k : A -> result B) : result B :=
  match r with
  | Ok a => k a
  | Panic s => Panic s
  end.

Notation "'let*' x := r 'in' k" := (bind r (fun x => k))
  (at level 10, x pattern, r at level 100, k at level 200).

(** A send on a buffered channel holding [len] of [cap] elements: the
    new length, or [None] when the sender has to wait. *)
Definition chan_send (cap len : nat) : option nat :=
  if (len <? cap)%nat then Some (S len) else None.

Definition errBroken : goerror :=
  GoError [OtherError] "cannot send on a broken connection".
Definition errNotRequest : goerror :=
  GoError [OtherError] "Message is not a request".

(** What the outside world answers to a dial and to a write. *)
Inductive dialResult : Type :=
| DialErr (err : goerror)                    (* DialContext failed *)
| DialDeadlineErr (s : sockid) (err : goerror) (* SetReadDeadline failed *)
| DialOK (s : sockid).

Inductive writeResult : Type :=
| WriteDeadlineErr (err : goerror)
| WriteErr (err : goerror)
| WriteOK.

(** [time.AfterFunc]: a new armed timer; [Stop] disarms one that has not
    fired. *)
Definition time_AfterFunc (d : Z) (fn : timerFunc) (c : wsConn) : wsConn * timerid :=
  (with_timers (timers c ++ [mkTimer fn d Armed]) c, length (timers c)).

Definition set_timer_state (st : timerState) (tm : timer) : timer :=
  mkTimer (t_func tm) (t_delay tm) st.

Definition stop_timer (t : timerid) (l : list timer) : list timer :=
  match l !! t with
  | Some tm =>
      match t_state tm with
      | Armed => <[t := set_timer_state Stopped tm]> l
      | _ => l
      end
  | None => l
  end.

Definition timer_Stop (t : timerid) (c : wsConn) : wsConn :=
  emit (EvTimerStop t) (with_timers (stop_timer t (timers c)) c).

Section Transport.

Variable cfg : WsCfg.
(** [json.Marshal] on a message: the bytes, or the encoder's error. *)
Variable json_Marshal : Message -> bytes + goerror.

Definition IsDown (c : wsConn) : bool :=
  negb (bool_decide (connectionStatus c = Connected)).

Definition setConnectionStatus (status : ConnectionStatus) (c : wsConn) : wsConn :=
  let oldStatus := connectionStatus c in
  let c := with_status status c in
  if negb (bool_decide (oldStatus = status)) && ConnectEventFunc cfg
  then emit (EvStatusHook status) c
  else c.

(** [conn.close]: a close frame, then the forced close of the socket. *)
Definition close (s : sockid) (c : wsConn) : wsConn := emit (EvSocketClose s) c.

Definition connect (r : dialResult) (c : wsConn) : wsConn * option goerror :=
  match r with
  | DialErr err =>
      if isErrorInvalidCert err then
        let c := setConnectionStatus InvalidCert c in
        if (String.length (Cert cfg) =? 0)%nat
        then (c, Some (dex_NewError ErrCertRequired (err_text err)))
        else (c, Some (dex_NewError ErrInvalidCert (err_text err)))
      else (setConnectionStatus Disconnected c, Some err)
  | DialDeadlineErr _ err =>
      (emit (EvLog "set read deadline failed") c, Some err)
  | DialOK s =>
      let c := match ws c with
               | Some old => close old c
               | None => c
               end in
      let c := with_ws (Some s) c in
      let c := setConnectionStatus Connected c in
      (* go conn.read(ctx) / conn.readRaw(ctx) *)
      (with_readers (S (readers c)) c, None)
  end.

(** The request registry. *)
Definition expire (id : N) (c : wsConn) : wsConn * bool :=
  (with_respHandlers (delete id (respHandlers c)) c,
   bool_decide (is_Some (respHandlers c !! id))).

Definition doExpire (id : N) (tok : token) (c : wsConn) : wsConn :=
  let '(c, removed) := expire id c in
  if removed then emit (EvExpire tok) c else c.

Definition logReq (id : N) (tok : token) (expireTime : Z) (c : wsConn) : wsConn :=
  let '(c, t) := time_AfterFunc expireTime (DoExpire id tok) c in
  emit (EvLogReq id tok)
    (with_respHandlers (<[id := mkHandler t tok tok]> (respHandlers c)) c).

Definition respHandler (id : N) (c : wsConn) : wsConn * option responseHandler :=
  match respHandlers c !! id with
  | Some cb =>
      let c := timer_Stop (expiration cb) c in
      (with_respHandlers (delete id (respHandlers c)) c, Some cb)
  | None => (c, None)
  end.

(** [SendRaw] after its [IsDown] test: the part under [wsMtx]. *)
Definition SendRaw_write (b : bytes) (w : writeResult) (c : wsConn)
  : result (wsConn * option goerror) :=
  match ws c with
  | None => Panic "nil pointer dereference"
  | Some s =>
      match w with
      | WriteDeadlineErr err =>
          Ok (emit (EvLog "Send: failed to set write deadline") c, Some err)
      | WriteErr err =>
          Ok (emit (EvLog "Send: WriteMessage error") c, Some err)
      | WriteOK => Ok (emit (EvWrite s b) c, None)
      end
  end.

Definition SendRaw (b : bytes) (w : writeResult) (c : wsConn)
  : result (wsConn * option goerror) :=
  if IsDown c then Ok (c, Some errBroken)
  else SendRaw_write b w c.

Definition Send (msg : Message) (w : writeResult) (c : wsConn)
  : result (wsConn * option goerror) :=
  if IsDown c then Ok (c, Some errBroken)
  else
    match json_Marshal msg with
    | inr err => Ok (emit (EvLog "Failed to marshal message") c, Some err)
    | inl b => SendRaw b w c
    end.

Definition RequestRawWithTimeout (tok : token) (msgID : N) (rawMsg : bytes)
    (expireTime : Z) (w : writeResult) (c : wsConn)
  : result (wsConn * option goerror) :=
  let c := logReq msgID tok expireTime c in
  let* (c, err) := SendRaw rawMsg w c in
  match err with
  | Some err => Ok (fst (respHandler msgID c), Some err)
  | None => Ok (c, None)
  end.

Definition RequestWithTimeout (tok : token) (msg : Message)
    (expireTime : Z) (w : writeResult) (c : wsConn)
  : result (wsConn * option goerror) :=
  if negb (bool_decide (Type_ msg = Request)) then Ok (c, Some errNotRequest)
  else
    match json_Marshal msg with
    | inr err => Ok (emit (EvLog "Failed to marshal message") c, Some err)
    | inl rawMsg =>
        let* (c, err) := RequestRawWithTimeout tok (ID msg) rawMsg expireTime w c in
        match err with
        | Some err =>
            Ok (emit (EvLog "Request: Send error, unregistering handler") c,
                Some err)
        | None => Ok (c, None)
        end
    end.

(** ** The read loop's error classifier *)

Fixpoint as_net_Error (chain : list errlayer) : option bool :=
  match chain with
  | [] => None
  | NetOpError _ _ t :: _ => Some t
  | NetError t :: _ => Some t
  | _ :: rest => as_net_Error rest
  end.

Fixpoint as_OpError (chain : list errlayer) : option (string * string) :=
  match chain with
  | [] => None
  | NetOpError op inner _ :: _ => Some (op, inner)
  | _ :: rest => as_OpError rest
  end.

Definition CloseNormalClosure : Z := 1000.
Definition CloseGoingAway : Z := 1001.

Definition IsCloseError (err : goerror) (codes : list Z) : bool :=
  match err_chain err with
  | WsCloseError code :: _ => existsb (Z.eqb code) codes
  | _ => false
  end.

(** The closure [reconnect] of [handleReadError], up to its channel
    send, and the send itself. *)
Definition reconnect_status (c : wsConn) : wsConn :=
  setConnectionStatus Disconnected c.

Definition reconnect_send (c : wsConn) : option wsConn :=
  match chan_send 1 (reconnectCh c) with
  | Some n => Some (with_reconnectCh n c)
  | None => None
  end.

(** [handleReadError] up to the send of [reconnect]: every branch ends
    in [reconnect()]; the branches differ in what they log. *)
Definition handleReadError_status (err : goerror) (c : wsConn) : wsConn :=
  if match as_net_Error (err_chain err) with Some t => t | None => false end
  then reconnect_status (emit (EvLog "Read timeout on connection") c)
  else if IsCloseError err [CloseGoingAway; CloseNormalClosure]
          || strings_Contains (err_text err) "websocket: close sent"
  then reconnect_status c
  else if match as_OpError (err_chain err) with
          | Some (op, inner) =>
              String.eqb op "read"
              && strings_Contains inner "use of closed network connection"
          | None => false
          end
  then reconnect_status (emit (EvLog "read quitting") c)
  else reconnect_status (emit (EvLog "read error, attempting reconnection") c).


(** ** The read loop: what one iteration does with a decoded message *)
Definition read_dispatch (msg : Message) (c : wsConn) : option wsConn :=
  if bool_decide (Type_ msg = Response) then
    match respHandler (ID msg) c with
    | (c, None) => Some (emit (EvLog "No handler found for response") c)
    | (c, Some handler) => Some (emit (EvCallback (f handler) msg) c)
    end
  else
    match chan_send readBuffSize (length (readCh c)) with
    | Some _ => Some (with_readCh (readCh c ++ [msg]) c)
    | None => None
    end.

(** ** The keepalive loop: the rest of an iteration after [connect] *)
Definition keepAlive_after (rcInt : Z) (err : option goerror) (c : wsConn)
  : wsConn * Z :=
  match err with
  | Some _ =>
      let c := emit (EvLog "Reconnect failed. Scheduling reconnect") c in
      let c := fst (time_AfterFunc rcInt PostReconnect c) in
      (c, if (rcInt <? maxReconnectInterval)%Z then (rcInt + reconnectInterval)%Z else rcInt)
  | None =>
      let c := emit (EvLog "Successfully reconnected.") c in
      (if ReconnectSync cfg then emit EvReconnectSync c else c, reconnectInterval)
  end.

(** ** The shutdown watcher's sections *)
Definition watcher_status (c : wsConn) : wsConn :=
  emit EvShutdownStatus (setConnectionStatus Disconnected c).

Definition watcher_close (c : wsConn) : wsConn :=
  let c' := match ws c with
            | Some s => close s (emit (EvLog "Sending close 1000 (normal) message.") c)
            | None => c
            end in
  emit (EvShutdownSocket (ws c)) c'.

Definition drain_one (c : wsConn) (ih : N * responseHandler) : wsConn :=
  let c := with_respHandlers (delete ih.1 (respHandlers c)) c in
  let c := timer_Stop (expiration ih.2) c in
  emit (EvAbort (abort ih.2)) c.

(** The range loop visits the handlers in an order Go leaves open; the
    order of [map_to_list] stands for it. *)
Definition drain (c : wsConn) : wsConn :=
  foldl drain_one c (map_to_list (respHandlers c)).

Definition close_readCh (c : wsConn) : wsConn :=
  emit EvCloseReadCh (with_readChCloses (S (readChCloses c)) c).

Definition watcher_drain (c : wsConn) : wsConn := close_readCh (drain c).

Definition cancel (c : wsConn) : wsConn :=
  emit EvCancel (with_cancelled true c).

(* =================================================================== *)
(** * Part 3: the goroutines                                            *)
(* =================================================================== *)

(** The goroutines of a connection share its fields and run in any
    order.  A step of the system is one critical section, or one stretch
    of code that touches the shared fields once:
    - a caller inside [RequestRawWithTimeout] stops after [logReq], after
      the [IsDown] test of [SendRaw], and after [SendRaw] has failed;
    - the read loop does one iteration per step, and stops between the
      status update and the channel send of [reconnect];
    - [keepAlive] stops between taking a trigger and [connect];
    - the shutdown watcher stops between its three sections;
    - a timer may fire at any time after it was armed; its expiry and
      the locked section of [doExpire] are one step, so a [doExpire]
      that runs although [Stop] was called on its expired timer is not a
      step of the model, and nothing below counts how often the closures
      of one request run;
    - [setConnectionStatus] is one step, the swap together with the call
      of the hook, so nothing below speaks about the order in which the
      hook sees the statuses;
    - [Connect] runs in one step and is called once per connection: the
      keepalive loop and the watcher below are those of that one call.
    What the world outside decides (the result of a dial, of a write, of
    a read) comes with the action. *)

(** Where a caller's goroutine stands inside [SendRaw] or
    [RequestRawWithTimeout].  [req] is there when [SendRaw] runs on
    behalf of [RequestRawWithTimeout]: the request ID, and whether the
    call came through [RequestWithTimeout], which logs a failure. *)
Inductive callerPc : Type :=
| PSendRaw (b : bytes) (req : option (N * bool))   (* before the IsDown test *)
| PWrite (b : bytes) (req : option (N * bool))     (* before wsMtx.Lock *)
| PUnregister (err : goerror) (id : N) (logged : bool)
                                           (* before conn.respHandler(id) *)
| PReturned (err : option goerror).

Inductive keepAlivePc : Type :=
| KANotStarted
| KASelect (rcInt : Z)       (* in the select *)
| KAConnect (rcInt : Z)      (* took a trigger, about to connect *)
| KAReturned.

Inductive watcherPc : Type :=
| WNotStarted | WWaiting | WClosing | WDraining | WReturned.

Record World : Type := mkWorld {
  conn : wsConn;
  callers : gmap token callerPc;
  triggering : nat;            (* read loops at the send of reconnect() *)
  keepAlive : keepAlivePc;
  watcher : watcherPc;
  started : bool               (* Connect has been called *)
}.

Definition with_conn c w :=
  mkWorld c (callers w) (triggering w) (keepAlive w) (watcher w) (started w).
Definition with_caller tok pc w :=
  mkWorld (conn w) (<[tok := pc]> (callers w)) (triggering w) (keepAlive w)
    (watcher w) (started w).
Definition with_triggering n w :=
  mkWorld (conn w) (callers w) n (keepAlive w) (watcher w) (started w).
Definition with_keepAlive k w :=
  mkWorld (conn w) (callers w) (triggering w) k (watcher w) (started w).
Definition with_watcher x w :=
  mkWorld (conn w) (callers w) (triggering w) (keepAlive w) x (started w).
Definition with_started b w :=
  mkWorld (conn w) (callers w) (triggering w) (keepAlive w) (watcher w) b.

Definition initial : World :=
  mkWorld NewWsConn ∅ 0 KANotStarted WNotStarted false.

(** [Connect], run by the caller in one piece.  [wg.Wait()] on the hard
    path waits for the tasks [connect] started; a failed [connect]
    started none.  The result is whether the wait-group is non-nil, and
    the error. *)
Definition Connect (r : dialResult) (w : World) : World * (bool * option goerror) :=
  let w := with_started true w in
  let '(c, err) := connect r (conn w) in
  let hard :=
    match err with
    | Some e =>
        DisableAutoReconnect cfg || errors_Is e ErrInvalidCert
        || errors_Is e ErrCertRequired
    | None => false
    end in
  if hard then (with_conn (close_readCh (cancel c)) w, (false, err))
  else
    let c :=
      match err with
      | Some _ =>
          let c := emit (EvLog "Initial connection failed, starting reconnect loop") c in
          fst (time_AfterFunc (5 * time_Second) PostReconnect c)
      | None => c
      end in
    let w := with_conn c w in
    let w := if DisableAutoReconnect cfg then w
             else with_keepAlive (KASelect reconnectInterval) w in
    (with_watcher WWaiting w, (true, None)).

Inductive action : Type :=
| AConnect (r : dialResult)
| AStop
| ASendRaw (tok : token) (b : bytes)
| ASend (tok : token) (msg : Message)
| ARequestRaw (tok : token) (id : N) (rawMsg : bytes) (expireTime : Z)
| ARequest (tok : token) (msg : Message) (expireTime : Z)
| ACheck (tok : token)
| AWrite (tok : token) (wr : writeResult)
| AUnregister (tok : token)
| ATimerFire (t : timerid)
| AReadMsg (msg : Message)
| AReadRaw (b : bytes)
| AReadErr (err : goerror)
| AReaderSend
| AKeepAliveRecv
| AKeepAliveDone
| AKeepAliveConnect (r : dialResult)
| AWatchStatus
| AWatchClose
| AWatchDrain.

Inductive crash : Type := NilSocket | NilCancelFunc.

Inductive outcome : Type :=
| Next (w : World)
| Disabled                   (* not at that point, or has to wait *)
| Crash (why : crash).

(** A call returns: the caller's goroutine is done. *)
Definition returns (tok : token) (err : option goerror) (w : World) : World :=
  with_caller tok (PReturned err) (with_conn (emit (EvReturn tok err) (conn w)) w).

(** [SendRaw] returned [err] to the caller at [tok]. *)
Definition sendRaw_failed (tok : token) (err : goerror) (req : option (N * bool))
    (w : World) : World :=
  match req with
  | Some (id, logged) => with_caller tok (PUnregister err id logged) w
  | None => returns tok (Some err) w
  end.

Definition reader_exit (w : World) : World :=
  with_conn (with_readers (pred (readers (conn w))) (conn w)) w.

Definition step (w : World) (a : action) : outcome :=
  let c := conn w in
  match a with
  | AConnect r =>
      if started w then Disabled else Next (fst (Connect r w))
  | AStop =>
      if started w then Next (with_conn (cancel c) w) else Crash NilCancelFunc
  (* callers *)
  | ASendRaw tok b =>
      match callers w !! tok with
      | Some _ => Disabled
      | None => Next (with_caller tok (PSendRaw b None) w)
      end
  | ASend tok msg =>
      match callers w !! tok with
      | Some _ => Disabled
      | None =>
          if IsDown c then Next (returns tok (Some errBroken) w)
          else
            match json_Marshal msg with
            | inr err =>
                Next (returns tok (Some err)
                        (with_conn (emit (EvLog "Failed to marshal message") c) w))
            | inl b => Next (with_caller tok (PSendRaw b None) w)
            end
      end
  | ARequestRaw tok id rawMsg expireTime =>
      match callers w !! tok with
      | Some _ => Disabled
      | None =>
          Next (with_caller tok (PSendRaw rawMsg (Some (id, false)))
                  (with_conn (logReq id tok expireTime c) w))
      end
  | ARequest tok msg expireTime =>
      match callers w !! tok with
      | Some _ => Disabled
      | None =>
          if negb (bool_decide (Type_ msg = Request))
          then Next (returns tok (Some errNotRequest) w)
          else
            match json_Marshal msg with
            | inr err =>
                Next (returns tok (Some err)
                        (with_conn (emit (EvLog "Failed to marshal message") c) w))
            | inl rawMsg =>
                Next (with_caller tok (PSendRaw rawMsg (Some (ID msg, true)))
                        (with_conn (logReq (ID msg) tok expireTime c) w))
            end
      end
  | ACheck tok =>
      match callers w !! tok with
      | Some (PSendRaw b req) =>
          if IsDown c then Next (sendRaw_failed tok errBroken req w)
          else Next (with_caller tok (PWrite b req) w)
      | _ => Disabled
      end
  | AWrite tok wr =>
      match callers w !! tok with
      | Some (PWrite b req) =>
          match SendRaw_write b wr c with
          | Panic _ => Crash NilSocket
          | Ok (c, Some err) => Next (sendRaw_failed tok err req (with_conn c w))
          | Ok (c, None) => Next (returns tok None (with_conn c w))
          end
      | _ => Disabled
      end
  | AUnregister tok =>
      match callers w !! tok with
      | Some (PUnregister err id logged) =>
          let c := fst (respHandler id c) in
          let c := if logged
                   then emit (EvLog "Request: Send error, unregistering handler") c
                   else c in
          Next (returns tok (Some err) (with_conn c w))
      | _ => Disabled
      end
  (* timers *)
  | ATimerFire t =>
      match timers c !! t with
      | Some tm =>
          match t_state tm with
          | Armed =>
              let fired := with_timers (<[t := set_timer_state Fired tm]> (timers c)) in
              match t_func tm with
              | DoExpire id tok => Next (with_conn (doExpire id tok (fired c)) w)
              | PostReconnect =>
                  match reconnect_send c with
                  | Some c => Next (with_conn (fired c) w)
                  | None => Disabled
                  end
              end
          | _ => Disabled
          end
      | None => Disabled
      end
  (* the read loop; a read that returns after cancellation ends it *)
  | AReadMsg msg =>
      if RawHandler cfg || bool_decide (readers c = 0%nat) then Disabled
      else if cancelled c then Next (reader_exit w)
      else
        match read_dispatch msg c with
        | Some c => Next (with_conn c w)
        | None => Disabled
        end
  | AReadRaw b =>
      if negb (RawHandler cfg) || bool_decide (readers c = 0%nat) then Disabled
      else if cancelled c then Next (reader_exit w)
      else Next (with_conn (emit (EvRawHandler b) c) w)
  | AReadErr err =>
      if bool_decide (readers c = 0%nat) then Disabled
      else if cancelled c then Next (reader_exit w)
      else if negb (RawHandler cfg)
              && existsb (fun l => bool_decide (l = JsonUnmarshalType)) (err_chain err)
      then Next (with_conn (emit (EvLog "json decode error") c) w)
      else
        let w := reader_exit (with_conn (handleReadError_status err c) w) in
        if DisableAutoReconnect cfg then Next w
        else Next (with_triggering (S (triggering w)) w)
  | AReaderSend =>
      match triggering w with
      | O => Disabled
      | S n =>
          match reconnect_send c with
          | Some c => Next (with_triggering n (with_conn c w))
          | None => Disabled
          end
      end
  (* keepAlive *)
  | AKeepAliveRecv =>
      match keepAlive w, reconnectCh c with
      | KASelect rcInt, S n =>
          let c := with_reconnectCh n c in
          if cancelled c then Next (with_keepAlive KAReturned (with_conn c w))
          else Next (with_keepAlive (KAConnect rcInt)
                       (with_conn (emit (EvLog "Attempting to reconnect") c) w))
      | _, _ => Disabled
      end
  | AKeepAliveDone =>
      match keepAlive w with
      | KASelect _ =>
          if cancelled c then Next (with_keepAlive KAReturned w) else Disabled
      | _ => Disabled
      end
  | AKeepAliveConnect r =>
      match keepAlive w with
      | KAConnect rcInt =>
          let '(c, err) := connect r c in
          let '(c, rcInt) := keepAlive_after rcInt err c in
          Next (with_keepAlive (KASelect rcInt) (with_conn c w))
      | _ => Disabled
      end
  (* the shutdown watcher *)
  | AWatchStatus =>
      match watcher w with
      | WWaiting =>
          if cancelled c
          then Next (with_watcher WClosing (with_conn (watcher_status c) w))
          else Disabled
      | _ => Disabled
      end
  | AWatchClose =>
      match watcher w with
      | WClosing => Next (with_watcher WDraining (with_conn (watcher_close c) w))
      | _ => Disabled
      end
  | AWatchDrain =>
      match watcher w with
      | WDraining => Next (with_watcher WReturned (with_conn (watcher_drain c) w))
      | _ => Disabled
      end
  end.

(** The states the goroutines can reach from a new connection. *)
Inductive reachable : World -> Prop :=
| reach_initial : reachable initial
| reach_step w a w' : reachable w -> step w a = Next w' -> reachable w'.

(** Running a schedule, for concrete executions. *)
Fixpoint run (w : World) (sched : list action) : outcome :=
  match sched with
  | [] => Next w
  | a :: rest =>
      match step w a with
      | Next w' => run w' rest
      | o => o
      end
  end.

(** The delays [keepAlive] schedules over a series of [connect]
    results ([true]: connected), and the interval it ends with. *)
Fixpoint keepAlive_delays (rcInt : Z) (results : list bool) : list Z * Z :=
  match results with
  | [] => ([], rcInt)
  | ok :: rest =>
      let err := if ok then None else Some errBroken in
      let '(c, rcInt') := keepAlive_after rcInt err NewWsConn in
      let '(ds, final) := keepAlive_delays rcInt' rest in
      ((map t_delay (timers c) ++ ds)%list, final)
  end.

(** The frames written to sockets so far, newest first. *)
Fixpoint writes (tr : list event) : list (sockid * bytes) :=
  match tr with
  | [] => []
  | EvWrite s b :: rest => (s, b) :: writes rest
  | _ :: rest => writes rest
  end.

(** ** Sample inputs *)

Definition defaultCfg : WsCfg := mkCfg "" false false false false.
Definition pinnedCfg : WsCfg := mkCfg "-----BEGIN CERTIFICATE-----" true true false false.

Definition errBadPayload : goerror :=
  GoError [OtherError] "json: error calling MarshalJSON for type json.RawMessage".

(** An encoder that rejects one malformed raw payload and passes the
    others through. *)
Definition sampleMarshal (msg : Message) : bytes + goerror :=
  if String.eqb (Payload msg) "{" then inr errBadPayload
  else inl (Payload msg).

Definition badRequest : Message := mkMessage Request "login" 7 "{".
Definition goodRequest : Message := mkMessage Request "login" 7 "{}".
Definition lateResponse : Message := mkMessage Response "login" 7 "{}".

Definition errUnknownAuthority : goerror :=
  GoError [OtherError; X509UnknownAuthority]
    "tls: failed to verify certificate: x509: certificate signed by unknown authority".
Definition errRefused : goerror :=
  GoError [NetOpError "dial" "connect: connection refused" false]
    "dial tcp 127.0.0.1:7232: connect: connection refused".

(** ** Invariants *)


(** What the drain leaves behind, field by field. *)
Definition drain_events (l : list (N * responseHandler)) : list event :=
  flat_map (fun ih => [EvTimerStop (expiration ih.2); EvAbort (abort ih.2)]) l.

Definition drain_timers (l : list (N * responseHandler)) (ts : list timer) : list timer :=
  foldl (fun ts ih => stop_timer (expiration ih.2) ts) ts l.

Definition drain_handlers (l : list (N * responseHandler))
    (m : gmap N responseHandler) : gmap N responseHandler :=
  foldl (fun m ih => delete ih.1 m) m l.

(** Timers that will post a reconnect trigger. *)
Definition is_armed_post (tm : timer) : bool :=
  match t_func tm, t_state tm with
  | PostReconnect, Armed => true
  | _, _ => false
  end.

Fixpoint armedPost (l : list timer) : nat :=
  match l with
  | [] => 0
  | tm :: rest => (if is_armed_post tm then 1 else 0) + armedPost rest
  end.

(** Everything that can still put a trigger on [reconnectCh], and the
    triggers already there. *)
Definition trigger_sources (w : World) : nat :=
  (reconnectCh (conn w) + readers (conn w) + triggering w
   + armedPost (timers (conn w))
   + match keepAlive w with KAConnect _ => 1 | _ => 0 end)%nat.

Definition trigger_invariant (w : World) : Prop :=
  (trigger_sources w <= 1)%nat /\
  (started w = false -> trigger_sources w = 0%nat).

(** Callbacks and the registrations they come from. *)
Definition callback_invariant (w : World) : Prop :=
  (forall id h, respHandlers (conn w) !! id = Some h ->
                In (EvLogReq id (f h)) (trace (conn w))) /\
  (forall tok msg, In (EvCallback tok msg) (trace (conn w)) ->
                   Type_ msg = Response /\
                   In (EvLogReq (ID msg) tok) (trace (conn w))) /\
  (forall id tok, In (EvLogReq id tok) (trace (conn w)) ->
                  is_Some (callers w !! tok)) /\
  (forall id id' tok, In (EvLogReq id tok) (trace (conn w)) ->
                      In (EvLogReq id' tok) (trace (conn w)) -> id = id').

(** The shutdown watcher and the inbound channel. *)
Definition shutdown_invariant (w : World) : Prop :=
  (readChCloses (conn w) <= 1)%nat /\
  (started w = false -> watcher w = WNotStarted /\ readChCloses (conn w) = 0%nat) /\
  (watcher w = WWaiting \/ watcher w = WClosing \/ watcher w = WDraining ->
   readChCloses (conn w) = 0%nat /\ started w = true) /\
  (watcher w = WClosing \/ watcher w = WDraining \/ watcher w = WReturned ->
   cancelled (conn w) = true /\ In EvShutdownStatus (trace (conn w))) /\
  (watcher w = WDraining \/ watcher w = WReturned ->
   exists s, In (EvShutdownSocket s) (trace (conn w)) /\
             match s with
             | Some x => In (EvSocketClose x) (trace (conn w))
             | None => True
             end) /\
  (readChCloses (conn w) <> 0%nat -> cancelled (conn w) = true).



(** While there is no socket the status is not Connected and no caller
    is past the [IsDown] test of [SendRaw]. *)
Definition socket_invariant (w : World) : Prop :=
  ws (conn w) = None ->
  connectionStatus (conn w) <> Connected /\
  forall tok b req, callers w !! tok <> Some (PWrite b req).


(* =================================================================== *)
(** * Part 3b: the rest of the interface                                *)
(* =================================================================== *)

(** [NextID]: [atomic.AddUint64(&conn.rID, 1)] on the 64-bit counter;
    the new value of the counter is also the result. *)
Definition uint64_modulus : N := 2 ^ 64.

Definition NextID (rID : N) : N * N :=
  let v := ((rID + 1) mod uint64_modulus)%N in (v, v).

(** The results of [n] calls in a row, and the counter after them. *)
Fixpoint NextID_calls (n : nat) (rID : N) : list N * N :=
  match n with
  | O => ([], rID)
  | S n' =>
      let '(rID, id) := NextID rID in
      let '(ids, final) := NextID_calls n' rID in
      (id :: ids, final)
  end.

(** The methods [Request] and [RequestRaw]: the default timeout and an
    expire function that does nothing.  ([Request] alone names the
    message type.) *)
Definition wsConn_Request (tok : token) (msg : Message) (w : writeResult) (c : wsConn)
  : result (wsConn * option goerror) :=
  RequestWithTimeout tok msg DefaultResponseTimeout w c.

Definition wsConn_RequestRaw (tok : token) (msgID : N) (rawMsg : bytes)
    (w : writeResult) (c : wsConn) : result (wsConn * option goerror) :=
  RequestRawWithTimeout tok msgID rawMsg DefaultResponseTimeout w c.

(** ** More invariants *)

(** What never changes about a timer: its function and its delay. *)
Definition timer_static (tm : timer) : timerFunc * Z := (t_func tm, t_delay tm).

(** The intervals [keepAlive] works with: 5 s, 10 s, ..., 60 s. *)
Definition backoff_interval (d : Z) : Prop :=
  exists k, 1 <= k <= 12 /\ d = k * reconnectInterval.

Definition interval_invariant (w : World) : Prop :=
  match keepAlive w with
  | KASelect rcInt | KAConnect rcInt => backoff_interval rcInt
  | _ => True
  end /\
  forall tm, In tm (timers (conn w)) -> t_func tm = PostReconnect ->
             backoff_interval (t_delay tm).

(** The non-Response messages a schedule reads, in order. *)
Definition delivered_by (a : action) : option Message :=
  match a with
  | AReadMsg msg => if bool_decide (Type_ msg = Response) then None else Some msg
  | _ => None
  end.

(** Raw mode. *)
Definition raw_invariant (w : World) : Prop :=
  RawHandler cfg = true ->
  readCh (conn w) = [] /\
  forall tok msg, ~ In (EvCallback tok msg) (trace (conn w)).

(** A connection made with auto-reconnect disabled. *)
Definition single_shot_invariant (w : World) : Prop :=
  DisableAutoReconnect cfg = true ->
  keepAlive w = KANotStarted /\ reconnectCh (conn w) = 0%nat /\
  triggering w = 0%nat /\ armedPost (timers (conn w)) = 0%nat.

(** Before [Connect], and after its hard-failure path. *)
Definition lifecycle_invariant (w : World) : Prop :=
  (started w = false ->
   connectionStatus (conn w) = Disconnected /\ keepAlive w = KANotStarted /\
   watcher w = WNotStarted /\ readers (conn w) = 0%nat /\ triggering w = 0%nat /\
   reconnectCh (conn w) = 0%nat /\ armedPost (timers (conn w)) = 0%nat /\
   cancelled (conn w) = false /\ readChCloses (conn w) = 0%nat /\
   ws (conn w) = None) /\
  (started w = true -> watcher w = WNotStarted ->
   connectionStatus (conn w) <> Connected /\ keepAlive w = KANotStarted /\
   readers (conn w) = 0%nat /\ triggering w = 0%nat /\
   reconnectCh (conn w) = 0%nat /\ armedPost (timers (conn w)) = 0%nat /\
   cancelled (conn w) = true /\ readChCloses (conn w) = 1%nat /\
   ws (conn w) = None).

(** ** The outcomes of a request *)

(** Does the event run one of the closures named by [tok]? *)
Definition is_outcome (tok : token) (e : event) : bool :=
  match e with
  | EvCallback t _ | EvExpire t | EvAbort t => bool_decide (t = tok)
  | _ => false
  end.

Fixpoint outcomes (tok : token) (tr : list event) : nat :=
  match tr with
  | [] => 0
  | e :: rest => (if is_outcome tok e then 1 else 0) + outcomes tok rest
  end.

Fixpoint count_aborts (tok : token) (l : list (N * responseHandler)) : nat :=
  match l with
  | [] => 0
  | ih :: rest => (if bool_decide (abort ih.2 = tok) then 1 else 0) + count_aborts tok rest
  end.

(** What a step does to the registry, the timers and the trace, as far
    as requests are concerned. *)
Definition same_registrations (tr tr' : list event) : Prop :=
  forall id tok, In (EvLogReq id tok) tr' <-> In (EvLogReq id tok) tr.

Definition effect_quiet (w w' : World) : Prop :=
  respHandlers (conn w') = respHandlers (conn w) /\
  same_registrations (trace (conn w)) (trace (conn w')) /\
  (forall tok, outcomes tok (trace (conn w')) = outcomes tok (trace (conn w))) /\
  (timers (conn w') = timers (conn w) \/
   (exists d, timers (conn w') = (timers (conn w) ++ [mkTimer PostReconnect d Armed])%list) \/
   (exists t tm, timers (conn w) !! t = Some tm /\ t_func tm = PostReconnect /\
                 timers (conn w') = <[t := set_timer_state Fired tm]> (timers (conn w)))).

Definition effect_register (w w' : World) : Prop :=
  exists id tok d,
    callers w !! tok = None /\
    respHandlers (conn w')
    = <[id := mkHandler (length (timers (conn w))) tok tok]> (respHandlers (conn w)) /\
    timers (conn w') = (timers (conn w) ++ [mkTimer (DoExpire id tok) d Armed])%list /\
    (forall tok', outcomes tok' (trace (conn w')) = outcomes tok' (trace (conn w))) /\
    (forall id' tok', In (EvLogReq id' tok') (trace (conn w')) <->
                      EvLogReq id tok = EvLogReq id' tok' \/
                      In (EvLogReq id' tok') (trace (conn w))).

Definition effect_take (w w' : World) : Prop :=
  exists id h (ran : bool),
    respHandlers (conn w) !! id = Some h /\
    respHandlers (conn w') = delete id (respHandlers (conn w)) /\
    timers (conn w') = stop_timer (expiration h) (timers (conn w)) /\
    same_registrations (trace (conn w)) (trace (conn w')) /\
    (forall tok, outcomes tok (trace (conn w'))
                 = ((if ran && bool_decide (f h = tok) then 1 else 0)
                    + outcomes tok (trace (conn w)))%nat).

Definition effect_expire (w w' : World) : Prop :=
  exists t tm id tok,
    timers (conn w) !! t = Some tm /\ t_state tm = Armed /\
    t_func tm = DoExpire id tok /\
    timers (conn w') = <[t := set_timer_state Fired tm]> (timers (conn w)) /\
    respHandlers (conn w') = delete id (respHandlers (conn w)) /\
    same_registrations (trace (conn w)) (trace (conn w')) /\
    (forall tok', outcomes tok' (trace (conn w'))
                  = ((if bool_decide (is_Some (respHandlers (conn w) !! id))
                         && bool_decide (tok = tok') then 1 else 0)
                     + outcomes tok' (trace (conn w)))%nat).

Definition effect_drain (w w' : World) : Prop :=
  respHandlers (conn w') = ∅ /\
  timers (conn w')
  = drain_timers (map_to_list (respHandlers (conn w))) (timers (conn w)) /\
  same_registrations (trace (conn w)) (trace (conn w')) /\
  (forall tok, outcomes tok (trace (conn w'))
               = (count_aborts tok (map_to_list (respHandlers (conn w)))
                  + outcomes tok (trace (conn w)))%nat).

(** Every pending handler has its own armed timer; every closure pair
    has at most one timer; once a closure of a request has run, nothing
    of the request is left. *)
Definition registry_invariant (w : World) : Prop :=
  (forall id h, respHandlers (conn w) !! id = Some h ->
     abort h = f h /\
     exists d, timers (conn w) !! expiration h
               = Some (mkTimer (DoExpire id (f h)) d Armed)) /\
  (forall t tm id tok, timers (conn w) !! t = Some tm ->
     t_func tm = DoExpire id tok -> In (EvLogReq id tok) (trace (conn w))) /\
  (forall t t' tm tm' id id' tok,
     timers (conn w) !! t = Some tm -> timers (conn w) !! t' = Some tm' ->
     t_func tm = DoExpire id tok -> t_func tm' = DoExpire id' tok -> t = t') /\
  (forall tok, outcomes tok (trace (conn w)) <> 0%nat ->
     (exists id, In (EvLogReq id tok) (trace (conn w))) /\
     (forall id h, respHandlers (conn w) !! id = Some h -> f h <> tok) /\
     (forall t tm id, timers (conn w) !! t = Some tm ->
        t_func tm = DoExpire id tok -> t_state tm <> Armed)).

(* =================================================================== *)
(** * Part 4: properties                                                *)
(* =================================================================== *)

(** ** The matcher against the meaning of the pattern *)

Import Regexp.

Lemma nullable_Matches r : nullable r = true <-> Matches r [].
Proof.
  induction r; simpl.
  - split; [done | intros H; inversion H].
  - split; [constructor | done].
  - split; [done | intros H; inversion H].
  - split; [done | intros H; inversion H].
  - rewrite andb_true_iff, IHr1, IHr2. split.
    + intros [H1 H2]. change (@nil ascii) with (@nil ascii ++ [])%list.
      constructor; done.
    + intros H. inversion H as [| | |? ? s1 s2 Ha Hb| | | |]; subst.
      match goal with E : (_ ++ _)%list = [] |- _ =>
        apply app_eq_nil in E as [-> ->] end. done.
  - rewrite orb_true_iff, IHr1, IHr2. split.
    + intros [H|H]; [apply MAltL | apply MAltR]; done.
    + intros H. inversion H; subst; [left | right]; done.
  - split; [constructor | done].
Qed.

Lemma Matches_Star_cons r c s :
  Matches (Star r) (c :: s) ->
  exists s1 s2, s = (s1 ++ s2)%list /\ Matches r (c :: s1) /\ Matches (Star r) s2.
Proof.
  intros H. remember (Star r) as r' eqn:Hr. remember (c :: s) as cs eqn:Hcs.
  revert c s Hcs.
  induction H as [| | | | | | |r0 s1 s2 H1 _ H2 IH2]; intros x t Hcs;
    try discriminate.
  injection Hr as ->.
  destruct s1 as [|a s1]; simpl in Hcs.
  - apply IH2; done.
  - injection Hcs as -> <-. exists s1, s2. done.
Qed.

Lemma deriv_Matches c r s : Matches (deriv c r) s <-> Matches r (c :: s).
Proof.
  revert s. induction r; intros s; simpl.
  - split; intros H; inversion H.
  - split; intros H; inversion H.
  - destruct (Ascii.eqb_spec c c0) as [->|Hne]; split; intros H.
    + inversion H; constructor.
    + inversion H; subst; constructor.
    + inversion H.
    + inversion H; subst; done.
  - destruct (Ascii.eqb_spec c newline) as [->|Hne]; split; intros H.
    + inversion H.
    + inversion H; subst; done.
    + inversion H; subst. constructor; done.
    + inversion H; subst; constructor.
  - assert (Hcat : forall t, Matches (Cat (deriv c r1) r2) t ->
                             Matches (Cat r1 r2) (c :: t)).
    { intros t H. inversion H as [| | |? ? s1 s2 Ha Hb| | | |]; subst.
      change (c :: s1 ++ s2)%list with ((c :: s1) ++ s2)%list.
      constructor; [apply IHr1|]; done. }
    assert (Hinv : Matches (Cat r1 r2) (c :: s) ->
              (Matches r1 [] /\ Matches r2 (c :: s)) \/
              Matches (Cat (deriv c r1) r2) s).
    { intros H. inversion H as [| | |? ? s1 s2 Ha Hb Heq| | | |]; subst.
      destruct s1 as [|a s1]; simpl in *.
      - left. subst. done.
      - right. match goal with E : _ :: _ = _ :: _ |- _ =>
          injection E as -> <- end.
        constructor; [apply IHr1|]; done. }
    destruct (nullable r1) eqn:Hn; split; intros H.
    + inversion H; subst; [apply Hcat; done|].
      change (c :: s) with ([] ++ c :: s)%list.
      constructor; [apply nullable_Matches | apply IHr2]; done.
    + apply Hinv in H as [[_ H]|H]; [apply MAltR, IHr2 | apply MAltL]; done.
    + apply Hcat; done.
    + apply Hinv in H as [[H _]|H]; [|done].
      apply nullable_Matches in H. congruence.
  - split; intros H; inversion H; subst;
      solve [apply MAltL, IHr1; done | apply MAltR, IHr2; done].
  - split; intros H.
    + inversion H as [| | |? ? s1 s2 Ha Hb| | | |]; subst.
      change (c :: s1 ++ s2)%list with ((c :: s1) ++ s2)%list.
      constructor; [apply IHr|]; done.
    + apply Matches_Star_cons in H as (s1 & s2 & -> & Ha & Hb).
      constructor; [apply IHr|]; done.
Qed.

Lemma match_prefix_spec r s :
  match_prefix r s = true <->
  exists p q, s = (p ++ q)%list /\ Matches r p.
Proof.
  revert r. induction s as [|c s IH]; intros r; simpl.
  - rewrite orb_false_r, nullable_Matches. split.
    + intros H. exists [], []. done.
    + intros (p & q & Heq & H). symmetry in Heq.
      apply app_eq_nil in Heq as [-> ->]. done.
  - rewrite orb_true_iff, nullable_Matches, IH. split.
    + intros [H|(p & q & -> & H)].
      * exists [], (c :: s). done.
      * exists (c :: p), q. split; [done|]. apply deriv_Matches; done.
    + intros (p & q & Heq & H). destruct p as [|a p]; [left; done|].
      injection Heq as <- ->. right. exists p, q. split; [done|].
      apply deriv_Matches; done.
Qed.

Lemma match_anywhere_spec r s :
  match_anywhere r s = true <->
  exists a p q, s = (a ++ p ++ q)%list /\ Matches r p.
Proof.
  induction s as [|c s IH]; cbn [match_anywhere].
  - rewrite orb_false_r, match_prefix_spec. split.
    + intros (p & q & Heq & H). exists [], p, q. done.
    + intros (a & p & q & Heq & H). symmetry in Heq.
      apply app_eq_nil in Heq as [-> Heq]. exists p, q. done.
  - rewrite orb_true_iff, match_prefix_spec, IH. split.
    + intros [(p & q & Heq & H)|(a & p & q & -> & H)].
      * exists [], p, q. done.
      * exists (c :: a), p, q. done.
    + intros (a & p & q & Heq & H). destruct a as [|x a].
      * left. exists p, q. done.
      * injection Heq as <- ->. right. exists a, p, q. done.
Qed.

Lemma Matches_lit_list l s : Matches (lit_list l) s <-> s = l.
Proof.
  revert s. induction l as [|c l IH]; intros s; simpl; split; intros H.
  - inversion H; done.
  - subst. constructor.
  - inversion H as [| | |? ? s1 s2 Ha Hb| | | |]; subst.
    inversion Ha; subst. apply IH in Hb as ->. done.
  - subst. change (c :: l) with ([c] ++ l)%list.
    constructor; [constructor | apply IH; done].
Qed.

Lemma has_prefix_spec sub s :
  has_prefix sub s = true <-> exists q, s = (sub ++ q)%list.
Proof.
  revert s. induction sub as [|a sub IH]; intros s; simpl.
  - split; [intros _; exists s; done | done].
  - destruct s as [|b s].
    + split; [done | intros (q & Hq); discriminate].
    + rewrite andb_true_iff, IH. split.
      * intros [Hab (q & ->)]. apply Ascii.eqb_eq in Hab as ->. exists q. done.
      * intros (q & Hq). injection Hq as -> ->. split; [apply Ascii.eqb_refl|].
        exists q. done.
Qed.

Lemma contains_at_some_spec sub s :
  contains_at_some sub s = true <->
  exists a q, s = (a ++ sub ++ q)%list.
Proof.
  induction s as [|c s IH]; cbn [contains_at_some].
  - rewrite orb_false_r, has_prefix_spec. split.
    + intros (q & Hq). exists [], q. done.
    + intros (a & q & Heq). symmetry in Heq.
      apply app_eq_nil in Heq as [-> Heq]. exists q. done.
  - rewrite orb_true_iff, has_prefix_spec, IH. split.
    + intros [(q & Hq)|(a & q & ->)].
      * exists [], q. done.
      * exists (c :: a), q. done.
    + intros (a & q & Heq). destruct a as [|x a].
      * left. exists q. done.
      * injection Heq as <- ->. right. exists a, q. done.
Qed.

(** An unanchored search for a literal is a substring test. *)
Lemma MatchString_literal lit s :
  MatchString (literal lit) s = strings_Contains s lit.
Proof.
  apply eq_true_iff_eq. unfold MatchString, strings_Contains, literal.
  rewrite match_anywhere_spec, contains_at_some_spec. split.
  - intros (a & p & q & -> & H). apply Matches_lit_list in H as ->.
    exists a, q. done.
  - intros (a & q & ->). eexists a, _, q. split; [done|].
    apply Matches_lit_list. done.
Qed.

Lemma MatchString_Alt r1 r2 s :
  MatchString (Alt r1 r2) s = MatchString r1 s || MatchString r2 s.
Proof.
  apply eq_true_iff_eq. unfold MatchString.
  rewrite orb_true_iff, !match_anywhere_spec. split.
  - intros (a & p & q & -> & H).
    inversion H; subst; [left | right]; exists a, p, q; done.
  - intros [(a & p & q & -> & H)|(a & p & q & -> & H)]; exists a, p, q;
      (split; [done|]); [apply MAltL | apply MAltR]; done.
Qed.

(** A leading [.*] does not change what an unanchored search finds. *)
Lemma MatchString_dot_star r s :
  MatchString (Cat (Star Dot) r) s = MatchString r s.
Proof.
  apply eq_true_iff_eq. unfold MatchString.
  rewrite !match_anywhere_spec. split.
  - intros (a & p & q & -> & H).
    inversion H as [| | |? ? s1 s2 Ha Hb| | | |]; subst.
    exists (a ++ s1)%list, s2, q. split; [|done].
    rewrite <- !app_assoc. done.
  - intros (a & p & q & -> & H). exists a, p, q. split; [done|].
    change p with ([] ++ p)%list. constructor; [constructor | done].
Qed.

(** ** Facts about single operations *)

Lemma connectionStatus_setConnectionStatus s c :
  connectionStatus (setConnectionStatus s c) = s.
Proof. unfold setConnectionStatus. case_match; done. Qed.

Lemma setConnectionStatus_frame s c :
  ws (setConnectionStatus s c) = ws c /\
  respHandlers (setConnectionStatus s c) = respHandlers c /\
  readCh (setConnectionStatus s c) = readCh c /\
  readChCloses (setConnectionStatus s c) = readChCloses c /\
  reconnectCh (setConnectionStatus s c) = reconnectCh c /\
  cancelled (setConnectionStatus s c) = cancelled c /\
  timers (setConnectionStatus s c) = timers c /\
  readers (setConnectionStatus s c) = readers c /\
  (trace (setConnectionStatus s c) = trace c \/
   trace (setConnectionStatus s c) = EvStatusHook s :: trace c).
Proof.
  unfold setConnectionStatus.
  destruct (negb _ && _); simpl; repeat split; auto.
Qed.

Lemma errors_Is_NewError s s' d :
  errors_Is (dex_NewError s d) s' = bool_decide (s = s').
Proof. destruct s, s'; done. Qed.

(** C4: an error of the dial is of the invalid-certificate class exactly
    when it is one of the three typed x509 errors or its text contains a
    match of the pattern; [connect] then sets status InvalidCert and
    returns CertificateRequired for an empty pinned certificate and
    InvalidCertificate otherwise; any other dial error sets status
    Disconnected and is returned as it is. *)
Theorem dial_error_classification (err : goerror) (c : wsConn) :
  (isErrorInvalidCert err = true <->
     errors_As_x509 X509CertificateInvalid err = true \/
     errors_As_x509 X509UnknownAuthority err = true \/
     errors_As_x509 X509Hostname err = true \/
     MatchString certPatternAlternatives (err_text err) = true)
  /\ MatchString certPatternAlternatives (err_text err) =
       strings_Contains (err_text err) "unknown authority"
       || strings_Contains (err_text err) "not standards compliant"
       || strings_Contains (err_text err) "not trusted"
  /\ (isErrorInvalidCert err = true ->
        connectionStatus (connect (DialErr err) c).1 = InvalidCert /\
        exists e, (connect (DialErr err) c).2 = Some e /\
          if (String.length (Cert cfg) =? 0)%nat
          then e = dex_NewError ErrCertRequired (err_text err) /\
               errors_Is e ErrCertRequired = true /\
               errors_Is e ErrInvalidCert = false
          else e = dex_NewError ErrInvalidCert (err_text err) /\
               errors_Is e ErrInvalidCert = true /\
               errors_Is e ErrCertRequired = false)
  /\ (isErrorInvalidCert err = false ->
        connectionStatus (connect (DialErr err) c).1 = Disconnected /\
        (connect (DialErr err) c).2 = Some err).
Proof.
  split; [|split; [|split]].
  - unfold isErrorInvalidCert, invalidCertRegexp.
    rewrite MatchString_dot_star, !orb_true_iff. tauto.
  - unfold certPatternAlternatives.
    rewrite !MatchString_Alt, !MatchString_literal, orb_assoc. done.
  - intros H. unfold connect. rewrite H.
    destruct (String.length (Cert cfg) =? 0)%nat; simpl;
      rewrite connectionStatus_setConnectionStatus; split; try done;
      eexists; split; try done.
  - intros H. unfold connect. rewrite H. simpl.
    rewrite connectionStatus_setConnectionStatus. done.
Qed.

(** C2: [Connect] when the first dial fails.  With auto-reconnect
    disabled, or when [connect] returned an error of the InvalidCert or
    CertRequired class (as it does for every invalid-certificate dial
    error), the internal context is cancelled, the inbound channel is
    closed, no task is started and the result is (nil, err).  Otherwise
    a reconnect trigger is scheduled 5 s later, the keepalive loop and
    the shutdown watcher are started, and the result is a non-nil
    wait-group with a nil error. *)
Theorem Connect_dial_failure (err : goerror) (w : World) :
  exists e c1,
    connect (DialErr err) (conn w) = (c1, Some e) /\
    (isErrorInvalidCert err = true ->
       errors_Is e ErrInvalidCert || errors_Is e ErrCertRequired = true) /\
    (isErrorInvalidCert err = false -> e = err) /\
    if DisableAutoReconnect cfg || errors_Is e ErrInvalidCert
       || errors_Is e ErrCertRequired
    then exists w',
        Connect (DialErr err) w = (w', (false, Some e)) /\
        cancelled (conn w') = true /\
        readChCloses (conn w') = S (readChCloses (conn w)) /\
        trace (conn w') = EvCloseReadCh :: EvCancel :: trace c1 /\
        timers (conn w') = timers (conn w) /\
        readers (conn w') = readers (conn w) /\
        keepAlive w' = keepAlive w /\ watcher w' = watcher w
    else exists w',
        Connect (DialErr err) w = (w', (true, None)) /\
        timers (conn w') =
          (timers (conn w) ++ [mkTimer PostReconnect (5 * time_Second) Armed])%list /\
        keepAlive w' = KASelect reconnectInterval /\
        watcher w' = WWaiting /\
        cancelled (conn w') = cancelled (conn w) /\
        readChCloses (conn w') = readChCloses (conn w).
Proof.
  destruct (connect (DialErr err) (conn w)) as [c1 oe] eqn:Hc.
  assert (Hfr : timers c1 = timers (conn w) /\ readers c1 = readers (conn w) /\
                cancelled c1 = cancelled (conn w) /\
                readChCloses c1 = readChCloses (conn w) /\
                exists e, oe = Some e /\
                  (isErrorInvalidCert err = true ->
                   errors_Is e ErrInvalidCert || errors_Is e ErrCertRequired = true) /\
                  (isErrorInvalidCert err = false -> e = err)).
  { unfold connect in Hc.
    destruct (isErrorInvalidCert err);
      [destruct (String.length (Cert cfg) =? 0)%nat|]; injection Hc as <- <-;
      match goal with |- context [setConnectionStatus ?s ?c] =>
        destruct (setConnectionStatus_frame s c) as (_&_&_&->&_&->&->&->&_) end;
      repeat (split; [done|]); eexists; (split; [done|]);
      rewrite ?errors_Is_NewError; split; intros; done. }
  destruct Hfr as (Ht & Hr & Hcn & Hcl & e & -> & Hcls & Hoth).
  exists e, c1. split; [done|]. split; [done|]. split; [done|].
  unfold Connect. change (conn (with_started true w)) with (conn w). rewrite Hc.
  destruct (DisableAutoReconnect cfg || errors_Is e ErrInvalidCert
            || errors_Is e ErrCertRequired) eqn:Hhard.
  - eexists. split; [done|]. simpl. rewrite Ht, Hr, Hcl. done.
  - apply orb_false_iff in Hhard as [Hhard _].
    apply orb_false_iff in Hhard as [-> _].
    eexists. split; [done|]. simpl. rewrite Ht, Hcn, Hcl. done.
Qed.

(** C3: from the initial interval, N failed reconnects in a row are
    scheduled 5 s, 10 s, 15 s, ... apart, 5 s more per failure and never
    more than 60 s; whatever came before, after a successful reconnect
    the series starts again at 5 s.  The last two parts tie the series
    to the keepalive goroutine: a failed attempt arms a trigger timer
    with the current interval and grows the interval by 5 s below 60 s;
    a successful one arms none and resets the interval to 5 s. *)
Theorem keepAlive_backoff_schedule (n : nat) (history : list bool) (rcInt : Z) :
  (keepAlive_delays reconnectInterval (repeat false n)).1 =
    map (fun k => Z.min ((Z.of_nat k + 1) * (5 * time_Second)) (60 * time_Second))
        (seq 0 n)
  /\ (keepAlive_delays rcInt (history ++ true :: repeat false n)).1 =
       ((keepAlive_delays rcInt history).1 ++
        map (fun k => Z.min ((Z.of_nat k + 1) * (5 * time_Second)) (60 * time_Second))
            (seq 0 n))%list
  /\ (forall w err c1 e,
        keepAlive w = KAConnect rcInt ->
        connect (DialErr err) (conn w) = (c1, Some e) ->
        exists w',
          step w (AKeepAliveConnect (DialErr err)) = Next w' /\
          timers (conn w') = (timers (conn w) ++ [mkTimer PostReconnect rcInt Armed])%list /\
          keepAlive w' =
            KASelect (if (rcInt <? 60 * time_Second)%Z
                      then (rcInt + 5 * time_Second)%Z else rcInt))
  /\ (forall w s,
        keepAlive w = KAConnect rcInt ->
        exists w',
          step w (AKeepAliveConnect (DialOK s)) = Next w' /\
          timers (conn w') = timers (conn w) /\
          keepAlive w' = KASelect (5 * time_Second)).
Proof.
  assert (Hgen : forall m j,
    (keepAlive_delays (Z.min ((Z.of_nat j + 1) * (5 * time_Second)) (60 * time_Second))
       (repeat false m)).1 =
    map (fun k => Z.min ((Z.of_nat k + 1) * (5 * time_Second)) (60 * time_Second))
        (seq j m)).
  { induction m as [|m IH]; intros j; [done|].
    cbn [repeat keepAlive_delays seq map]. unfold keepAlive_after.
    cbn [time_AfterFunc fst emit timers with_timers].
    set (rc := Z.min _ _).
    assert (Hnext : (if (rc <? maxReconnectInterval)%Z
                     then (rc + reconnectInterval)%Z else rc) =
                    Z.min ((Z.of_nat (S j) + 1) * (5 * time_Second)) (60 * time_Second)).
    { unfold rc, maxReconnectInterval, reconnectInterval, time_Minute, time_Second.
      case_match; [apply Z.ltb_lt in H | apply Z.ltb_ge in H]; lia. }
    rewrite Hnext. specialize (IH (S j)).
    destruct (keepAlive_delays _ (repeat false m)) as [ds fin]. simpl in *.
    rewrite IH. done. }
  split; [|split; [|split]].
  - apply (Hgen n 0%nat).
  - revert rcInt. induction history as [|ok history IH]; intros rcInt.
    + cbn [app keepAlive_delays]. unfold keepAlive_after.
      assert (Htm : forall c, timers (if ReconnectSync cfg then emit EvReconnectSync c else c) = timers c).
      { intros c. case_match; done. }
      specialize (Hgen n 0%nat).
      change (Z.min ((Z.of_nat 0 + 1) * (5 * time_Second)) (60 * time_Second))
        with reconnectInterval in Hgen.
      destruct (keepAlive_delays reconnectInterval (repeat false n)) as [ds fin].
      simpl in *. rewrite Htm. simpl. done.
    + cbn [app keepAlive_delays].
      destruct (keepAlive_after rcInt _ NewWsConn) as [c rc'].
      specialize (IH rc').
      destruct (keepAlive_delays rc' (history ++ _)) as [ds fin].
      destruct (keepAlive_delays rc' history) as [ds' fin'].
      simpl in *. rewrite IH, app_assoc. done.
  - intros w err c1 e Hk Hc. unfold step. rewrite Hk, Hc. simpl.
    eexists. split; [done|]. simpl. split; [|done].
    unfold connect in Hc.
    destruct (isErrorInvalidCert err);
      [destruct (String.length (Cert cfg) =? 0)%nat|]; injection Hc as <- _;
      match goal with |- context [setConnectionStatus ?s ?c] =>
        destruct (setConnectionStatus_frame s c) as (_&_&_&_&_&_&->&_) end; done.
  - intros w s Hk. unfold step. rewrite Hk.
    destruct (connect (DialOK s) (conn w)) as [c1 oe] eqn:Hc.
    unfold connect in Hc. injection Hc as <- <-. simpl.
    eexists. split; [done|]. split; [|done].
    destruct (ReconnectSync cfg); simpl;
      match goal with |- context [setConnectionStatus ?s ?c] =>
        destruct (setConnectionStatus_frame s c) as (_&_&_&_&_&_&->&_) end;
      destruct (ws (conn w)); done.
Qed.

(** C9: for a message that is not of type Request, [RequestWithTimeout]
    returns an error at once and leaves the connection as it was: the
    registry, the timers and the socket are untouched, and the encoder
    is not consulted (the result is the same for every encoder). *)
Theorem RequestWithTimeout_not_request
    (tok : token) (msg : Message) (expireTime : Z) (wr : writeResult) (c : wsConn) :
  Type_ msg <> Request ->
  RequestWithTimeout tok msg expireTime wr c = Ok (c, Some errNotRequest).
Proof.
  intros H. unfold RequestWithTimeout. rewrite bool_decide_eq_false_2; done.
Qed.

(** C8: when the outbound message fails to marshal, [Send] (which
    marshals on a connection that is not down) and [RequestWithTimeout]
    (which marshals a message of type Request) return the encoder's
    error at once and only log: nothing is written to the socket, and
    the registry and the timers are as before, so no handler is
    registered.  Whatever the guards before the encoder decide, a call
    with such a message returns an error, writes nothing and registers
    nothing. *)
Theorem marshal_failure
    (tok : token) (msg : Message) (expireTime : Z) (wr : writeResult)
    (c : wsConn) (err : goerror) :
  json_Marshal msg = inr err ->
  (IsDown c = false ->
   Send msg wr c = Ok (emit (EvLog "Failed to marshal message") c, Some err)) /\
  (Type_ msg = Request ->
   RequestWithTimeout tok msg expireTime wr c
   = Ok (emit (EvLog "Failed to marshal message") c, Some err)) /\
  (exists c' e,
      Send msg wr c = Ok (c', Some e) /\
      writes (trace c') = writes (trace c) /\
      respHandlers c' = respHandlers c /\ timers c' = timers c /\
      ws c' = ws c /\ connectionStatus c' = connectionStatus c) /\
  (exists c' e,
      RequestWithTimeout tok msg expireTime wr c = Ok (c', Some e) /\
      writes (trace c') = writes (trace c) /\
      respHandlers c' = respHandlers c /\ timers c' = timers c /\
      ws c' = ws c /\ connectionStatus c' = connectionStatus c).
Proof.
  intros H. split; [|split; [|split]].
  - intros Hd. unfold Send. rewrite Hd, H. done.
  - intros Ht. unfold RequestWithTimeout.
    rewrite bool_decide_eq_true_2 by done. simpl. rewrite H. done.
  - unfold Send. rewrite H.
    destruct (IsDown c); eexists _, _; (split; [done|]); done.
  - unfold RequestWithTimeout. rewrite H.
    destruct (bool_decide_reflect (Type_ msg = Request)); simpl;
      eexists _, _; (split; [done|]); done.
Qed.

(** ** Invariants of the goroutines *)

Lemma reachable_invariant (P : World -> Prop) :
  P initial ->
  (forall w a w', reachable w -> P w -> step w a = Next w' -> P w') ->
  forall w, reachable w -> P w.
Proof. intros H0 Hstep w Hw. induction Hw; eauto. Qed.

Lemma reachable_run w sched w' :
  reachable w -> run w sched = Next w' -> reachable w'.
Proof.
  revert w. induction sched as [|a rest IH]; intros w Hw Hrun; simpl in Hrun.
  - congruence.
  - destruct (step w a) eqn:Hs; try discriminate.
    eapply IH; [|done]. econstructor; done.
Qed.

(** The drain in closed form. *)
Lemma drain_fold l c :
  foldl drain_one c l =
  mkConn (connectionStatus c) (ws c) (drain_handlers l (respHandlers c))
    (readCh c) (readChCloses c) (reconnectCh c) (cancelled c)
    (drain_timers l (timers c)) (readers c)
    (rev (drain_events l) ++ trace c)%list.
Proof.
  revert c. induction l as [|ih l IH]; intros c; [destruct c; done|].
  cbn [foldl]. rewrite IH. unfold drain_one, timer_Stop. simpl.
  rewrite <- !app_assoc. done.
Qed.

Lemma drain_handlers_lookup l (m : gmap N responseHandler) k :
  drain_handlers l m !! k = None <-> (k ∈ l.*1 \/ m !! k = None).
Proof.
  revert m. induction l as [|ih l IH]; intros m; simpl.
  - rewrite elem_of_nil. tauto.
  - unfold drain_handlers in *. simpl. rewrite IH, elem_of_cons.
    rewrite lookup_delete_None. clear IH. intuition congruence.
Qed.

Lemma drain_handlers_all (m : gmap N responseHandler) :
  drain_handlers (map_to_list m) m = ∅.
Proof.
  apply map_eq. intros k. rewrite lookup_empty. apply drain_handlers_lookup.
  destruct (m !! k) as [h|] eqn:E; [left | right; done].
  apply list_elem_of_fmap. exists (k, h). split; [done|].
  apply elem_of_map_to_list. done.
Qed.



Lemma armedPost_app l x :
  armedPost (l ++ [x]) = (armedPost l + if is_armed_post x then 1 else 0)%nat.
Proof. induction l as [|y l IH]; simpl; [lia|]. rewrite IH. lia. Qed.

Lemma armedPost_insert l t tm x :
  l !! t = Some tm ->
  (armedPost (<[t := x]> l) + if is_armed_post tm then 1 else 0)%nat =
  (armedPost l + if is_armed_post x then 1 else 0)%nat.
Proof.
  revert t. induction l as [|y l IH]; intros [|t] H; simpl in *; try done.
  - injection H as ->. lia.
  - specialize (IH t H). lia.
Qed.

Lemma armedPost_stop_timer t l : (armedPost (stop_timer t l) <= armedPost l)%nat.
Proof.
  unfold stop_timer. destruct (l !! t) as [tm|] eqn:E; [|done].
  destruct (t_state tm) eqn:Est; try done.
  pose proof (armedPost_insert l t tm (set_timer_state Stopped tm) E) as H.
  assert (Hx : is_armed_post (set_timer_state Stopped tm) = false).
  { unfold is_armed_post. simpl. destruct (t_func tm); done. }
  rewrite Hx in H. destruct (is_armed_post tm); lia.
Qed.

Lemma armedPost_drain_timers l ts : (armedPost (drain_timers l ts) <= armedPost ts)%nat.
Proof.
  revert ts. induction l as [|ih l IH]; intros ts; [done|].
  unfold drain_timers in *. simpl. etrans; [apply IH|]. apply armedPost_stop_timer.
Qed.

Lemma In_drain_events l e :
  In e (drain_events l) <->
  exists ih, ih ∈ l /\ (e = EvTimerStop (expiration ih.2) \/ e = EvAbort (abort ih.2)).
Proof.
  unfold drain_events. rewrite in_flat_map. split.
  - intros (ih & Hin & He). exists ih. rewrite list_elem_of_In. simpl in He.
    intuition (subst; auto).
  - intros (ih & Hin & He). exists ih. rewrite <- list_elem_of_In. simpl.
    intuition (subst; auto).
Qed.

(** Unfolding a step down to the record updates. *)
Ltac unfold_ops :=
  unfold step, Connect, returns, sendRaw_failed, reader_exit, connect,
    watcher_status, watcher_close, watcher_drain, drain, close_readCh, cancel,
    keepAlive_after, read_dispatch, handleReadError_status, reconnect_status,
    reconnect_send, respHandler, logReq, doExpire, expire, SendRaw_write,
    setConnectionStatus, close, time_AfterFunc, timer_Stop, chan_send, IsDown in *;
  rewrite ?drain_fold in *.

Ltac step_cases :=
  unfold_ops;
  repeat (first [ progress simplify_eq/= | case_match ]).

Ltac bool_hyps :=
  repeat match goal with
  | H : negb _ = true |- _ => apply negb_true_iff in H
  | H : negb _ = false |- _ => apply negb_false_iff in H
  | H : bool_decide _ = true |- _ => apply bool_decide_eq_true in H
  | H : bool_decide _ = false |- _ => apply bool_decide_eq_false in H
  | H : _ && _ = true |- _ => apply andb_true_iff in H as [? ?]
  | H : _ || _ = false |- _ => apply orb_false_iff in H as [? ?]
  end.

(** The socket reference, once set, stays set. *)
Lemma step_ws_monotone w a w' :
  step w a = Next w' -> ws (conn w') = None -> ws (conn w) = None.
Proof. intros Hs Hnil. destruct a; step_cases; done. Qed.

Lemma socket_invariant_step w a w' :
  socket_invariant w -> step w a = Next w' -> socket_invariant w'.
Proof.
  intros IH Hs Hnil.
  destruct (IH (step_ws_monotone _ _ _ Hs Hnil)) as [Hst Hcl]. clear IH.
  destruct a; step_cases;
    (split; [congruence|]); intros tok' b' req';
    try match goal with
    | |- <[?t := _]> _ !! ?t' <> _ =>
        destruct (decide (t = t')) as [->|];
        [rewrite lookup_insert_eq | rewrite lookup_insert_ne by done]
    end; bool_hyps; try done; try apply Hcl.
Qed.

Lemma socket_invariant_reachable w : reachable w -> socket_invariant w.
Proof.
  apply reachable_invariant.
  - intros _. split; [done|]. intros tok b req. simpl. rewrite lookup_empty. done.
  - intros ? ? ? _. apply socket_invariant_step.
Qed.

(** C10: a new connection has status Disconnected and no socket; in
    every state the goroutines reach, status Connected implies that the
    socket reference is set, no step resets the reference, and neither a
    goroutine inside [SendRaw] nor a call of [SendRaw] run in one piece
    dereferences a nil socket. *)
Theorem connected_has_socket (w : World) :
  reachable w ->
  connectionStatus NewWsConn = Disconnected /\
  ws NewWsConn = None /\
  (connectionStatus (conn w) = Connected -> is_Some (ws (conn w))) /\
  (forall a w', step w a = Next w' ->
                is_Some (ws (conn w)) -> is_Some (ws (conn w'))) /\
  (forall a, step w a <> Crash NilSocket) /\
  (forall b wr reason, SendRaw b wr (conn w) <> Panic reason) /\
  (forall b wr, IsDown (conn w) = true ->
                SendRaw b wr (conn w) = Ok (conn w, Some errBroken)).
Proof.
  intros Hw. pose proof (socket_invariant_reachable w Hw) as Hinv.
  split; [done|]. split; [done|]. split; [|split; [|split; [|split]]].
  - intros Hc. destruct (ws (conn w)) eqn:E; [done|].
    destruct (Hinv E) as [Hn _]. done.
  - intros a w' Hs [s Hsome]. destruct (ws (conn w')) eqn:E; [done|].
    apply (step_ws_monotone _ _ _ Hs) in E. congruence.
  - intros a Hs. destruct a; simpl in Hs; repeat case_match; try discriminate.
    unfold SendRaw_write in *. repeat case_match; try discriminate.
    match goal with E : ws (conn w) = None |- _ => destruct (Hinv E) as [_ Hcl] end.
    eapply Hcl. done.
  - intros b wr reason. unfold SendRaw, SendRaw_write, IsDown.
    destruct (bool_decide_reflect (connectionStatus (conn w) = Connected)) as [Hc|Hc];
      simpl; [|done].
    destruct (ws (conn w)) eqn:E; [destruct wr; done|].
    destruct (Hinv E) as [Hn _]. done.
  - intros b wr Hd. unfold SendRaw. rewrite Hd. done.
Qed.

(** ** At most one source of reconnect triggers *)

Ltac armed_facts :=
  repeat match goal with
  | |- context [armedPost (stop_timer ?t ?l)] =>
      pose proof (armedPost_stop_timer t l);
      generalize dependent (armedPost (stop_timer t l)); intros
  | |- context [armedPost (drain_timers ?x ?l)] =>
      pose proof (armedPost_drain_timers x l);
      generalize dependent (armedPost (drain_timers x l)); intros
  | H : ?l !! ?t = Some ?tm |- context [armedPost (<[?t := ?x]> ?l)] =>
      pose proof (armedPost_insert l t tm x H);
      generalize dependent (armedPost (<[t := x]> l)); intros
  end.

Lemma trigger_invariant_step w a w' :
  trigger_invariant w -> step w a = Next w' -> trigger_invariant w'.
Proof.
  unfold trigger_invariant, trigger_sources. intros [IH IH0] Hs.
  assert (IH1 : started w = true \/
                (reconnectCh (conn w) + readers (conn w) + triggering w
                 + armedPost (timers (conn w))
                 + match keepAlive w with KAConnect _ => 1 | _ => 0 end)%nat = 0%nat).
  { destruct (started w); [left | right]; auto. }
  clear IH0.
  destruct a; step_cases; rewrite ?armedPost_app; simpl;
    armed_facts; unfold is_armed_post in *; simpl in *;
    repeat match goal with
    | H : t_func _ = _ |- _ => rewrite H in *
    | H : t_state _ = _ |- _ => rewrite H in *
    end; simpl in *;
    bool_hyps; (split; [|intros Hst]); destruct IH1; try congruence; try lia.
Qed.

Lemma trigger_invariant_reachable w : reachable w -> trigger_invariant w.
Proof.
  apply reachable_invariant.
  - split; [vm_compute; lia | done].
  - intros ? ? ? _. apply trigger_invariant_step.
Qed.



(** ** Callbacks come from registrations *)

Ltac in_cases :=
  repeat match goal with
  | H : _ \/ _ |- _ => destruct H as [H|H]
  | H : In _ (_ ++ _)%list |- _ => apply in_app_iff in H
  | H : In _ (rev _) |- _ => apply in_rev in H
  | H : In _ (drain_events _) |- _ => apply In_drain_events in H as (? & ? & ?)
  | H : False |- _ => destruct H
  end; simplify_eq.

Ltac in_goal := simpl; rewrite ?in_app_iff; simpl; auto 10.

Lemma callback_invariant_step w a w' :
  callback_invariant w -> step w a = Next w' -> callback_invariant w'.
Proof.
  intros (I1 & I2 & I3 & I4) Hs.
  destruct a; step_cases; bool_hyps; unfold callback_invariant; simpl;
    rewrite ?drain_handlers_all;
    (split; [|split; [|split]]).
  all: try (intros id0 h0 Hl; rewrite ?lookup_empty in Hl; try discriminate;
            rewrite ?lookup_delete_Some, ?lookup_insert_Some in Hl;
            destruct_and?; destruct_or?; destruct_and?; subst; in_goal; fail).
  all: try (intros tok0 msg0 Hin; in_cases;
            first [ destruct (I2 _ _ Hin) as [? ?]; split; [done|]; in_goal; fail
                  | split; [done|]; in_goal; fail ]).
  all: try (intros id0 tok0 Hin; in_cases;
            rewrite ?lookup_insert_is_Some'; eauto; fail).
  all: try (intros id0 id1 tok0 Hin Hin'; in_cases; eauto;
            first [ apply I3 in Hin as [? ?]; congruence
                  | apply I3 in Hin' as [? ?]; congruence ]).
Qed.

Lemma callback_invariant_reachable w : reachable w -> callback_invariant w.
Proof.
  apply reachable_invariant.
  - repeat split; simpl; intros; try done.
  - intros ? ? ? _. apply callback_invariant_step.
Qed.

(** C7: when a response callback has run, the message it was given is of
    type Response and its ID is the ID under which [logReq] registered
    that callback (the only ID the callback was ever registered under); a
    response whose ID has no handler in the registry is logged and
    dropped: the read loop goes on, nothing else changes and no callback
    runs. *)
Theorem callback_message_matches_request (w : World) :
  reachable w ->
  (forall tok msg, In (EvCallback tok msg) (trace (conn w)) ->
     Type_ msg = Response /\
     In (EvLogReq (ID msg) tok) (trace (conn w)) /\
     forall id, In (EvLogReq id tok) (trace (conn w)) -> id = ID msg) /\
  (forall msg, Type_ msg = Response -> respHandlers (conn w) !! ID msg = None ->
     read_dispatch msg (conn w)
     = Some (emit (EvLog "No handler found for response") (conn w)) /\
     (RawHandler cfg = false -> readers (conn w) <> 0%nat ->
      cancelled (conn w) = false ->
      step w (AReadMsg msg)
      = Next (with_conn (emit (EvLog "No handler found for response") (conn w)) w))).
Proof.
  intros Hw. destruct (callback_invariant_reachable w Hw) as (I1 & I2 & I3 & I4).
  split.
  - intros tok msg Hin. destruct (I2 _ _ Hin) as [Ht Hl].
    split; [done|]. split; [done|]. intros id Hid. eapply I4; done.
  - intros msg Ht Hnone.
    assert (Hd : read_dispatch msg (conn w)
                 = Some (emit (EvLog "No handler found for response") (conn w))).
    { unfold read_dispatch, respHandler.
      rewrite bool_decide_eq_true_2 by done. rewrite Hnone. done. }
    split; [done|]. intros Hraw Hr Hc. unfold step.
    rewrite Hraw, Hc, Hd. rewrite bool_decide_eq_false_2 by done. done.
Qed.

(** ** Shutdown *)

Lemma shutdown_invariant_step w a w' :
  shutdown_invariant w -> step w a = Next w' -> shutdown_invariant w'.
Proof.
  intros (I1 & I2 & I3 & I4 & I5 & I6) Hs.
  destruct a; step_cases; unfold shutdown_invariant; simpl;
    destruct (watcher w); destruct (started w); simpl in *;
    repeat match goal with
    | H : ?P -> _ |- _ =>
        let HP := fresh in
        assert (HP : P) by (auto; congruence); specialize (H HP); clear HP
    end;
    destruct_and?; try discriminate;
    repeat match goal with
    | H : exists _, _ |- _ => destruct H as (? & ? & ?)
    end;
    repeat split; intros; destruct_or?; try discriminate; try lia;
    try congruence; rewrite ?in_app_iff; simpl; auto 10;
    first
      [ match goal with
        | Hx : In (EvShutdownSocket ?x) _ |- exists _, _ =>
            exists x; destruct x; split; rewrite ?in_app_iff; simpl; auto 10
        end
      | eexists; split; [left; reflexivity|]; simpl; auto 10 ].
Qed.

Lemma shutdown_invariant_reachable w : reachable w -> shutdown_invariant w.
Proof.
  apply reachable_invariant.
  - unfold shutdown_invariant. simpl. intuition (try discriminate; try lia).
  - intros ? ? ? _. apply shutdown_invariant_step.
Qed.



(** ** The calls run in one piece are runs of the goroutine system *)

Lemma RequestRawWithTimeout_uninterrupted w tok id rawMsg expireTime wr c' err :
  callers w !! tok = None ->
  RequestRawWithTimeout tok id rawMsg expireTime wr (conn w) = Ok (c', err) ->
  exists sched w',
    run w (ARequestRaw tok id rawMsg expireTime :: ACheck tok :: sched) = Next w' /\
    conn w' = emit (EvReturn tok err) c' /\
    callers w' !! tok = Some (PReturned err).
Proof.
  intros Hfresh Hcall. unfold RequestRawWithTimeout, SendRaw in Hcall.
  set (c1 := logReq id tok expireTime (conn w)) in *.
  cbn [run]. unfold step at 1. rewrite Hfresh.
  cbn [run]. unfold step at 1. cbn [callers with_caller conn with_conn].
  rewrite lookup_insert_eq. fold c1.
  destruct (IsDown c1) eqn:Hdown.
  - simpl in Hcall. injection Hcall as <- <-.
    exists [AUnregister tok]. eexists. cbn [run sendRaw_failed]. unfold step at 1.
    cbn [callers with_caller conn with_conn]. rewrite lookup_insert_eq.
    split; [done|]. simpl. rewrite lookup_insert_eq. done.
  - destruct (SendRaw_write rawMsg wr c1) as [[c2 [e|]]|] eqn:Hw; simpl in Hcall;
      [| |done].
    + injection Hcall as <- <-.
      exists [AWrite tok wr; AUnregister tok]. eexists. cbn [run]. unfold step at 1.
      cbn [callers with_caller conn with_conn]. rewrite lookup_insert_eq, Hw.
      cbn [run sendRaw_failed]. unfold step at 1.
      cbn [callers with_caller conn with_conn]. rewrite lookup_insert_eq.
      split; [done|]. simpl. rewrite lookup_insert_eq. done.
    + injection Hcall as <- <-.
      exists [AWrite tok wr]. eexists. cbn [run]. unfold step at 1.
      cbn [callers with_caller conn with_conn]. rewrite lookup_insert_eq, Hw.
      split; [done|]. simpl. rewrite lookup_insert_eq. done.
Qed.

(* =================================================================== *)
(** * Part 5: more properties of the code                               *)
(* =================================================================== *)

(** ** The request registry *)

(** X1: Registering a handler and taking it back: [respHandler] returns the
    handler [logReq] stored, with its timer stopped, and the registry is
    what it was without the key; a second [respHandler] finds nothing
    and changes nothing. *)
Theorem logReq_respHandler (id : N) (tok : token) (expireTime : Z) (c : wsConn) :
  let r := respHandler id (logReq id tok expireTime c) in
  r.2 = Some (mkHandler (length (timers c)) tok tok) /\
  respHandlers r.1 = delete id (respHandlers c) /\
  timers r.1 = (timers c ++ [mkTimer (DoExpire id tok) expireTime Stopped])%list /\
  trace r.1 = EvTimerStop (length (timers c)) :: EvLogReq id tok :: trace c /\
  connectionStatus r.1 = connectionStatus c /\ ws r.1 = ws c /\
  respHandler id r.1 = (r.1, None).
Proof.
  assert (Hstop : stop_timer (length (timers c))
                    (timers c ++ [mkTimer (DoExpire id tok) expireTime Armed])
                  = (timers c ++ [mkTimer (DoExpire id tok) expireTime Stopped])%list).
  { unfold stop_timer. rewrite lookup_app_r by lia.
    replace (length (timers c) - length (timers c))%nat with 0%nat by lia. simpl.
    rewrite insert_app_r_alt by lia.
    replace (length (timers c) - length (timers c))%nat with 0%nat by lia. done. }
  destruct (respHandler id (logReq id tok expireTime c)) as [c1 oh] eqn:Heq.
  unfold respHandler, logReq, time_AfterFunc in Heq. cbn -[stop_timer] in Heq.
  rewrite lookup_insert_eq in Heq. injection Heq as <- <-.
  unfold timer_Stop. cbn -[stop_timer]. rewrite Hstop, delete_insert_eq.
  repeat (split; [done|]).
  unfold respHandler. cbn -[stop_timer]. rewrite lookup_delete_eq. done.
Qed.


(** ** Sending *)

(** Whatever it returns, [SendRaw] touches nothing but the trace, and
    on an error it has written nothing. *)
Lemma SendRaw_frame (b : bytes) (wr : writeResult) (c c' : wsConn)
    (err : option goerror) :
  SendRaw b wr c = Ok (c', err) ->
  (err <> None -> writes (trace c') = writes (trace c)) /\
  connectionStatus c' = connectionStatus c /\ ws c' = ws c /\
  respHandlers c' = respHandlers c /\ timers c' = timers c /\
  readCh c' = readCh c /\ reconnectCh c' = reconnectCh c.
Proof.
  unfold SendRaw, SendRaw_write. intros H.
  destruct (IsDown c); [injection H as <- <-; done|].
  destruct (ws c) as [s|] eqn:Hs; [|done].
  destruct wr; injection H as <- <-; simpl; repeat split; done.
Qed.

(** X3: A nil error from [SendRaw] means that the status was Connected and
    that exactly the given bytes went out as one frame on the current
    socket; nothing else about the connection changed.  Whatever it
    returns, [SendRaw] leaves status, socket, registry, timers and
    channels alone. *)
Theorem SendRaw_nil_means_sent (b : bytes) (wr : writeResult) (c c' : wsConn)
    (err : option goerror) :
  SendRaw b wr c = Ok (c', err) ->
  (err = None ->
   connectionStatus c = Connected /\
   exists s, ws c = Some s /\ c' = emit (EvWrite s b) c) /\
  (err <> None -> writes (trace c') = writes (trace c)) /\
  connectionStatus c' = connectionStatus c /\ ws c' = ws c /\
  respHandlers c' = respHandlers c /\ timers c' = timers c /\
  readCh c' = readCh c /\ reconnectCh c' = reconnectCh c.
Proof.
  intros H. split; [|by eapply SendRaw_frame].
  intros ->. revert H. unfold SendRaw, SendRaw_write, IsDown.
  destruct (bool_decide_reflect (connectionStatus c = Connected)) as [Hc|Hc];
    simpl; [|done].
  destruct (ws c) as [s|] eqn:Hs; [|done].
  destruct wr; intros H; try discriminate.
  injection H as <-. split; [done|]. exists s. done.
Qed.

(** X4: A nil error from [Send] means that the message was marshalled and
    that exactly its encoding went out as one frame. *)
Theorem Send_nil_means_sent (msg : Message) (wr : writeResult) (c c' : wsConn) :
  Send msg wr c = Ok (c', None) ->
  connectionStatus c = Connected /\
  exists b s, json_Marshal msg = inl b /\ ws c = Some s /\
              c' = emit (EvWrite s b) c.
Proof.
  unfold Send, SendRaw, SendRaw_write, IsDown. intros H.
  destruct (bool_decide_reflect (connectionStatus c = Connected)) as [Hc|Hc];
    simpl in H; [|done].
  destruct (json_Marshal msg) as [b|e] eqn:Hm; [|done].
  destruct (ws c) as [s|] eqn:Hs; [|done].
  destruct wr; try discriminate.
  injection H as <-. split; [done|]. exists b, s. done.
Qed.

(** ** Requests *)

(** X5: The success path of [RequestWithTimeout]: on a Connected connection,
    for a Request message that marshals and a write that succeeds, the
    result is nil, the encoding went out as one frame, and exactly one
    handler was added, under the message's ID, with a timer armed for
    the given duration.  The method [Request] does the same with a timer of one
    minute. *)
Theorem RequestWithTimeout_sent (tok : token) (msg : Message) (expireTime : Z)
    (c : wsConn) (rawMsg : bytes) (s : sockid) :
  Type_ msg = Request -> json_Marshal msg = inl rawMsg ->
  connectionStatus c = Connected -> ws c = Some s ->
  let c' := emit (EvWrite s rawMsg) (logReq (ID msg) tok expireTime c) in
  RequestWithTimeout tok msg expireTime WriteOK c = Ok (c', None) /\
  respHandlers c' = <[ID msg := mkHandler (length (timers c)) tok tok]> (respHandlers c) /\
  timers c' = (timers c ++ [mkTimer (DoExpire (ID msg) tok) expireTime Armed])%list /\
  writes (trace c') = (s, rawMsg) :: writes (trace c) /\
  wsConn_Request tok msg WriteOK c
  = Ok (emit (EvWrite s rawMsg) (logReq (ID msg) tok (60 * time_Second) c), None).
Proof.
  intros Ht Hm Hc Hs.
  assert (Hgen : forall d,
    RequestWithTimeout tok msg d WriteOK c
    = Ok (emit (EvWrite s rawMsg) (logReq (ID msg) tok d c), None)).
  { intros d. unfold RequestWithTimeout, RequestRawWithTimeout, SendRaw,
      SendRaw_write, IsDown, logReq, time_AfterFunc.
    rewrite bool_decide_eq_true_2 by done. rewrite Hm. simpl.
    rewrite bool_decide_eq_true_2 by done. rewrite Hs. done. }
  simpl. split; [apply Hgen|]. repeat (split; [done|]). apply Hgen.
Qed.

(** X6: The failure path of [RequestRawWithTimeout]: when the send fails the
    call takes its handler back out.  The registry is then the old one
    without the request's ID, so a handler that was pending under the
    same ID is gone as well, and its timer is left as it was; the new
    timer is stopped, nothing was written, and the trace gained only the
    registration, the timer stop and log lines. *)
Theorem RequestRawWithTimeout_failed (tok : token) (id : N) (rawMsg : bytes)
    (expireTime : Z) (wr : writeResult) (c c' : wsConn) (e : goerror) :
  RequestRawWithTimeout tok id rawMsg expireTime wr c = Ok (c', Some e) ->
  respHandlers c' = delete id (respHandlers c) /\
  timers c' = (timers c ++ [mkTimer (DoExpire id tok) expireTime Stopped])%list /\
  writes (trace c') = writes (trace c) /\
  connectionStatus c' = connectionStatus c /\ ws c' = ws c /\
  (forall ev, In ev (trace c') ->
     In ev (trace c) \/ ev = EvLogReq id tok \/
     ev = EvTimerStop (length (timers c)) \/ exists l, ev = EvLog l).
Proof.
  unfold RequestRawWithTimeout. intros H.
  destruct (SendRaw rawMsg wr (logReq id tok expireTime c)) as [[c1 oe]|] eqn:Hsend;
    simpl in H; [|done].
  destruct oe as [e1|]; [|done]. injection H as <- <-.
  destruct (SendRaw_frame _ _ _ _ _ Hsend)
    as (Hw & Hst & Hws & Hrh & Htm & _ & _).
  specialize (Hw ltac:(done)).
  assert (Htr : forall ev, In ev (trace c1) ->
                  In ev (trace c) \/ ev = EvLogReq id tok \/ exists l, ev = EvLog l).
  { revert Hsend. unfold SendRaw, SendRaw_write.
    destruct (IsDown (logReq id tok expireTime c)); [intros [= <- _]; simpl; intuition|].
    destruct (ws (logReq id tok expireTime c)); [|done].
    destruct wr; intros [= <- ?]; simpl; intros ev Hin; intuition eauto. }
  unfold respHandler. rewrite Hrh. unfold logReq, time_AfterFunc in *. simpl in *.
  rewrite lookup_insert_eq. simpl. rewrite Hrh, Htm, Hst, Hws, Hw. simpl.
  rewrite delete_insert_eq.
  assert (Hstop : stop_timer (length (timers c))
                    (timers c ++ [mkTimer (DoExpire id tok) expireTime Armed])
                  = (timers c ++ [mkTimer (DoExpire id tok) expireTime Stopped])%list).
  { unfold stop_timer. rewrite lookup_app_r by lia.
    replace (length (timers c) - length (timers c))%nat with 0%nat by lia. simpl.
    rewrite insert_app_r_alt by lia.
    replace (length (timers c) - length (timers c))%nat with 0%nat by lia. done. }
  rewrite Hstop. repeat (split; [done|]).
  intros ev [<-|Hin]; [auto|]. destruct (Htr ev Hin) as [?|[?|?]]; auto.
Qed.

(** ** Request identifiers *)

Lemma NextID_calls_from (n : nat) (k : N) :
  (k + N.of_nat n < uint64_modulus)%N ->
  NextID_calls n k = (map (fun i => (k + N.of_nat i)%N) (seq 1 n), (k + N.of_nat n)%N).
Proof.
  revert k. induction n as [|n IH]; intros k Hlt.
  - simpl. rewrite N.add_0_r. done.
  - cbn [NextID_calls]. unfold NextID.
    rewrite N.mod_small by lia. rewrite IH by lia.
    cbn [seq map]. f_equal; [|lia]. f_equal; try lia.
    rewrite <- (seq_shift n 1), map_map. apply map_ext. intros i. lia.
Qed.

(** X7: The first n calls of [NextID] on a new connection return 1, 2, ...,
    n, all different and none of them 0, as long as n stays below 2^64;
    the call after 2^64 - 1 wraps round to 0. *)
Theorem NextID_distinct (n : nat) :
  (N.of_nat n < uint64_modulus)%N ->
  (NextID_calls n 0).1 = map N.of_nat (seq 1 n) /\
  NoDup (NextID_calls n 0).1 /\
  ~ In 0%N (NextID_calls n 0).1 /\
  (NextID_calls n 0).2 = N.of_nat n /\
  NextID (uint64_modulus - 1) = (0%N, 0%N).
Proof.
  intros Hlt. rewrite NextID_calls_from by (simpl; lia). simpl.
  assert (Hmap : map (fun i => (0 + N.of_nat i)%N) (seq 1 n) = map N.of_nat (seq 1 n)).
  { apply map_ext. intros i. lia. }
  rewrite Hmap. split; [done|]. split; [|split; [|split; [lia|done]]].
  - apply NoDup_fmap_2; [intros x y; lia | apply NoDup_ListNoDup, seq_NoDup].
  - rewrite in_map_iff. intros (i & Hi & Hin). apply in_seq in Hin. lia.
Qed.

(** ** Raw mode *)

Lemma raw_invariant_step w a w' :
  raw_invariant w -> step w a = Next w' -> raw_invariant w'.
Proof.
  intros IH Hs Hraw. destruct (IH Hraw) as [Hch Hcb]. clear IH.
  destruct a; step_cases; bool_hyps; try congruence; simpl;
    (split; [done|]); intros tok0 msg0 Hin; simpl in Hin; in_cases;
    eapply Hcb; done.
Qed.

(** X9: In raw mode the read loop hands every frame to the raw handler and
    nothing else: no response callback ever runs and nothing is ever put
    on the inbound channel, whatever is registered and whatever
    arrives. *)
Theorem raw_mode_bypasses_registry (w : World) :
  reachable w -> RawHandler cfg = true ->
  readCh (conn w) = [] /\
  (forall tok msg, ~ In (EvCallback tok msg) (trace (conn w))) /\
  (forall msg, step w (AReadMsg msg) = Disabled) /\
  (forall b, readers (conn w) <> 0%nat -> cancelled (conn w) = false ->
     step w (AReadRaw b) = Next (with_conn (emit (EvRawHandler b) (conn w)) w)).
Proof.
  intros Hw Hraw.
  assert (Hinv : raw_invariant w).
  { revert w Hw. apply reachable_invariant.
    - intros _. split; [done|]. intros ? ? [].
    - intros ? ? ? _. apply raw_invariant_step. }
  destruct (Hinv Hraw) as [H1 H2]. split; [done|]. split; [done|]. split.
  - intros msg. unfold step. rewrite Hraw. done.
  - intros b Hr Hc. unfold step. rewrite Hraw, Hc. simpl.
    rewrite bool_decide_eq_false_2 by done. done.
Qed.

(** ** The inbound channel *)

Lemma step_readCh w a w' :
  step w a = Next w' ->
  readCh (conn w') = (readCh (conn w) ++ option_list (delivered_by a))%list /\
  (length (readCh (conn w')) <= Nat.max (length (readCh (conn w))) readBuffSize)%nat
  \/ readCh (conn w') = readCh (conn w).
Proof.
  intros Hs. destruct a; try (right; step_cases; done).
  unfold step in Hs. repeat case_match; simplify_eq; simpl; auto.
  unfold read_dispatch, respHandler, chan_send in *.
  repeat case_match; simplify_eq; simpl; auto.
  left. split; [done|]. rewrite length_app. simpl.
  match goal with E : (_ <? _)%nat = true |- _ => apply Nat.ltb_lt in E end. lia.
Qed.

(** X10: The transport only ever appends to the inbound channel, and it
    appends messages in the order the read loop got them: after any run
    the channel holds what it held before followed by some of the
    non-Response messages the run read, in reading order.  A Response
    is never put on the channel. *)
Theorem inbound_order (w : World) (sched : list action) (w' : World) :
  run w sched = Next w' ->
  exists delivered,
    readCh (conn w') = (readCh (conn w) ++ delivered)%list /\
    sublist delivered (omap delivered_by sched) /\
    Forall (fun msg => Type_ msg <> Response) delivered.
Proof.
  revert w. induction sched as [|a rest IH]; intros w Hrun; simpl in Hrun.
  - injection Hrun as <-. exists []. rewrite app_nil_r. repeat split; constructor.
  - destruct (step w a) as [w1| |] eqn:Hs; try discriminate.
    destruct (IH _ Hrun) as (d & Heq & Hsub & Hall).
    destruct (step_readCh _ _ _ Hs) as [[Hd _]|Hd]; rewrite Hd in Heq.
    + exists (option_list (delivered_by a) ++ d)%list.
      rewrite <- app_assoc in Heq. split; [done|]. simpl.
      destruct (delivered_by a) as [m|] eqn:Ed; simpl.
      * split; [apply sublist_skip; done|]. constructor; [|done].
        destruct a; try discriminate. simpl in Ed.
        destruct (bool_decide_reflect (Type_ msg = Response)); [done|].
        injection Ed as <-. done.
      * done.
    + exists d. split; [done|]. split; [|done]. simpl.
      destruct (delivered_by a); [apply sublist_cons|]; done.
Qed.

(** The buffer of the inbound channel never holds more than 128
    messages. *)
Lemma readCh_within_capacity w :
  reachable w -> (length (readCh (conn w)) <= readBuffSize)%nat.
Proof.
  apply (reachable_invariant (fun w => (length (readCh (conn w)) <= readBuffSize)%nat)).
  - simpl. unfold readBuffSize. lia.
  - intros w0 a w1 _ IH Hs.
    destruct (step_readCh _ _ _ Hs) as [[_ Hd]|Hd]; [lia | rewrite Hd; done].
Qed.

(** ** The backoff interval *)

Lemma timers_static_stop t l : map timer_static (stop_timer t l) = map timer_static l.
Proof.
  unfold stop_timer. destruct (l !! t) as [tm|] eqn:E; [|done].
  destruct (t_state tm); try done.
  rewrite list_fmap_insert. apply list_insert_id.
  rewrite list_lookup_fmap, E. done.
Qed.

Lemma timers_static_drain x l : map timer_static (drain_timers x l) = map timer_static l.
Proof.
  revert l. induction x as [|ih x IH]; intros l; [done|].
  unfold drain_timers in *. simpl. rewrite IH. apply timers_static_stop.
Qed.

Lemma timers_static_insert t tm st l :
  l !! t = Some tm ->
  map timer_static (<[t := set_timer_state st tm]> l) = map timer_static l.
Proof.
  intros E. rewrite list_fmap_insert. apply list_insert_id.
  rewrite list_lookup_fmap, E. done.
Qed.

(** A step leaves the function and the delay of every timer alone and
    removes none; it may add timers at the end. *)
Lemma step_timers_static w a w' :
  step w a = Next w' ->
  exists new, map timer_static (timers (conn w'))
              = (map timer_static (timers (conn w)) ++ map timer_static new)%list /\
              (forall tm, In tm new ->
                 t_func tm = PostReconnect ->
                 t_delay tm = 5 * time_Second \/
                 exists rcInt, keepAlive w = KAConnect rcInt /\ t_delay tm = rcInt).
Proof.
  intros Hs. destruct a; step_cases;
    rewrite ?timers_static_stop, ?timers_static_drain;
    try (erewrite timers_static_insert by done);
    rewrite ?timers_static_stop;
    first
      [ exists []; rewrite app_nil_r; split; [done | intros ? []]
      | eexists [_]; rewrite map_app; split; [done|];
        intros tm0 [<-|[]] Hf; simpl in *; eauto; discriminate ].
Qed.

Lemma backoff_interval_next rcInt :
  backoff_interval rcInt ->
  backoff_interval (if (rcInt <? maxReconnectInterval)%Z
                    then (rcInt + reconnectInterval)%Z else rcInt).
Proof.
  intros (k & Hk & ->). unfold maxReconnectInterval, reconnectInterval, time_Minute,
    time_Second in *.
  destruct (_ <? _)%Z eqn:E.
  - apply Z.ltb_lt in E. exists (k + 1). unfold reconnectInterval, time_Second. lia.
  - exists k. unfold reconnectInterval, time_Second. lia.
Qed.

Lemma interval_invariant_step w a w' :
  interval_invariant w -> step w a = Next w' -> interval_invariant w'.
Proof.
  intros [Hk Ht] Hs. split.
  - clear Ht. destruct a; step_cases; try done; try congruence;
      first [ match goal with
              | H0 : (?r <? _)%Z = true, Hr : backoff_interval ?r |- _ =>
                  let Hn := fresh in
                  pose proof (backoff_interval_next r Hr) as Hn;
                  rewrite H0 in Hn; exact Hn
              end
            | exists 1; unfold reconnectInterval; lia ].
  - destruct (step_timers_static _ _ _ Hs) as (new & Hst & Hnew).
    intros tm Hin Hf.
    assert (Hs' : In (timer_static tm) (map timer_static (timers (conn w')))).
    { apply in_map. done. }
    rewrite Hst in Hs'. apply in_app_iff in Hs' as [Hold|Hn].
    + apply in_map_iff in Hold as (tm0 & Heq & Hin0).
      unfold timer_static in Heq. injection Heq as Hf0 Hd0.
      rewrite <- Hd0. apply Ht; [done | congruence].
    + apply in_map_iff in Hn as (tm0 & Heq & Hin0).
      unfold timer_static in Heq. injection Heq as Hf0 Hd0.
      rewrite <- Hd0.
      destruct (Hnew tm0 Hin0 ltac:(congruence)) as [->|(rc & Hka & ->)].
      * exists 1. unfold reconnectInterval. lia.
      * rewrite Hka in Hk. done.
Qed.

(** X11: The interval of the keepalive loop is always one of 5 s, 10 s, ...,
    60 s, and so is the delay of every timer that was ever armed to post
    a reconnect trigger: a reconnect is never scheduled sooner than 5 s
    or later than 60 s after a failure. *)
Theorem reconnect_delay_bounds (w : World) :
  reachable w ->
  (forall rcInt, keepAlive w = KASelect rcInt \/ keepAlive w = KAConnect rcInt ->
     5 * time_Second <= rcInt <= 60 * time_Second /\
     (rcInt mod (5 * time_Second) = 0)%Z) /\
  (forall tm, In tm (timers (conn w)) -> t_func tm = PostReconnect ->
     5 * time_Second <= t_delay tm <= 60 * time_Second /\
     (t_delay tm mod (5 * time_Second) = 0)%Z).
Proof.
  intros Hw.
  assert (Hinv : interval_invariant w).
  { revert w Hw. apply reachable_invariant.
    - split; [done | intros ? []].
    - intros ? ? ? _. apply interval_invariant_step. }
  assert (Hb : forall d, backoff_interval d ->
                 5 * time_Second <= d <= 60 * time_Second /\
                 (d mod (5 * time_Second) = 0)%Z).
  { intros d (k & Hk & ->). unfold reconnectInterval, time_Second.
    split; [lia|]. apply Z_mod_mult. }
  destruct Hinv as [Hk Ht]. split.
  - intros rcInt [E|E]; rewrite E in Hk; apply Hb; done.
  - intros tm Hin Hf. apply Hb. apply Ht; done.
Qed.

(** ** A connection without auto-reconnect *)

Lemma single_shot_invariant_step w a w' :
  single_shot_invariant w -> step w a = Next w' -> single_shot_invariant w'.
Proof.
  intros IH Hs Hd. destruct (IH Hd) as (Hk & Hch & Htr & Harm). clear IH.
  destruct a; step_cases; rewrite ?armedPost_app; simpl;
    armed_facts; unfold is_armed_post in *; simpl in *;
    repeat match goal with
    | H : t_func _ = _ |- _ => rewrite H in *
    | H : t_state _ = _ |- _ => rewrite H in *
    end; simpl in *; rewrite ?Hd in *; simpl in *;
    try congruence; repeat split; try done; try lia.
Qed.

(** X12: With auto-reconnect disabled there is one dial, the one of
    [Connect]: no keepalive loop exists, no reconnect trigger is ever
    posted or scheduled, and once [Connect] has run the status never
    becomes Connected again after it has left Connected. *)
Theorem single_shot_connect (w : World) :
  reachable w -> DisableAutoReconnect cfg = true ->
  keepAlive w = KANotStarted /\ reconnectCh (conn w) = 0%nat /\
  triggering w = 0%nat /\ armedPost (timers (conn w)) = 0%nat /\
  (forall r, step w (AKeepAliveConnect r) = Disabled) /\
  (forall a w', step w a = Next w' -> started w = true ->
     connectionStatus (conn w') = Connected ->
     connectionStatus (conn w) = Connected).
Proof.
  intros Hw Hd.
  assert (Hinv : single_shot_invariant w).
  { revert w Hw. apply reachable_invariant.
    - intros _. done.
    - intros ? ? ? _. apply single_shot_invariant_step. }
  destruct (Hinv Hd) as (Hk & Hch & Htr & Harm).
  repeat (split; [done|]). split.
  - intros r. unfold step. rewrite Hk. done.
  - intros a w' Hs Hst Hc. destruct a; step_cases; congruence.
Qed.

(** ** Before Connect and after its hard failure *)

Lemma lifecycle_invariant_step w a w' :
  lifecycle_invariant w -> step w a = Next w' -> lifecycle_invariant w'.
Proof.
  intros [I0 I1] Hs.
  assert (I0' : started w = true \/
                (connectionStatus (conn w) = Disconnected /\ keepAlive w = KANotStarted /\
                 watcher w = WNotStarted /\ readers (conn w) = 0%nat /\
                 triggering w = 0%nat /\ reconnectCh (conn w) = 0%nat /\
                 armedPost (timers (conn w)) = 0%nat /\
                 cancelled (conn w) = false /\ readChCloses (conn w) = 0%nat /\
                 ws (conn w) = None)).
  { destruct (started w); auto. }
  assert (I1' : started w = false \/ watcher w <> WNotStarted \/
                (connectionStatus (conn w) <> Connected /\ keepAlive w = KANotStarted /\
                 readers (conn w) = 0%nat /\ triggering w = 0%nat /\
                 reconnectCh (conn w) = 0%nat /\ armedPost (timers (conn w)) = 0%nat /\
                 cancelled (conn w) = true /\ readChCloses (conn w) = 1%nat /\
                 ws (conn w) = None)).
  { destruct (started w); auto. destruct (watcher w); auto; right; left; done. }
  clear I0 I1.
  destruct a; step_cases; unfold lifecycle_invariant; rewrite ?armedPost_app; simpl;
    armed_facts; unfold is_armed_post in *; simpl in *;
    repeat match goal with
    | H : t_func _ = _ |- _ => rewrite H in *
    | H : t_state _ = _ |- _ => rewrite H in *
    end; simpl in *; bool_hyps;
    (split; [intros Hst | intros Hst Hwn]);
    destruct I0' as [?|?]; destruct I1' as [?|[?|?]]; destruct_and?;
    try congruence; try lia; repeat split; rewrite ?armedPost_app; simpl;
    try congruence; try lia.
Qed.

Lemma lifecycle_invariant_reachable w : reachable w -> lifecycle_invariant w.
Proof.
  apply reachable_invariant.
  - split; [intros _; repeat split | intros; discriminate].
  - intros ? ? ? _. apply lifecycle_invariant_step.
Qed.

(** X13: Before [Connect] is called nothing runs: the status is
    Disconnected, so every send is refused, and [Stop] would call a nil
    cancel function.  After [Connect] has returned (nil, err) the
    connection is dead for good: the context is cancelled, the inbound
    channel closed, no read loop, keepalive loop, watcher or reconnect
    timer exists, and the status never changes again, so [IsDown] stays
    true. *)
Theorem hard_failure_is_final (w : World) :
  reachable w ->
  (started w = false ->
   IsDown (conn w) = true /\ step w AStop = Crash NilCancelFunc /\
   readChCloses (conn w) = 0%nat) /\
  (started w = true -> watcher w = WNotStarted ->
   IsDown (conn w) = true /\ cancelled (conn w) = true /\
   readChCloses (conn w) = 1%nat /\
   readers (conn w) = 0%nat /\ keepAlive w = KANotStarted /\
   armedPost (timers (conn w)) = 0%nat /\
   forall a w', step w a = Next w' ->
     connectionStatus (conn w') = connectionStatus (conn w) /\
     started w' = true /\ watcher w' = WNotStarted).
Proof.
  intros Hw. destruct (lifecycle_invariant_reachable w Hw) as [I0 I1]. split.
  - intros Hst. destruct (I0 Hst) as (Hc & _ & _ & _ & _ & _ & _ & _ & Hcl & _).
    unfold IsDown, step. rewrite Hc, Hst. done.
  - intros Hst Hwn.
    destruct (I1 Hst Hwn) as (Hc & Hk & Hr & Ht & Hch & Ha & Hcn & Hcl & Hws).
    split. { unfold IsDown. rewrite bool_decide_eq_false_2; done. }
    repeat (split; [done|]).
    intros a w' Hs. destruct a; step_cases; bool_hyps; try done; try congruence; try lia.
Qed.

(** ** Shutdown runs through *)

Lemma watcher_sections_frame c :
  connectionStatus (watcher_close (watcher_status c)) = Disconnected /\
  respHandlers (watcher_close (watcher_status c)) = respHandlers c /\
  cancelled (watcher_close (watcher_status c)) = cancelled c /\
  readChCloses (watcher_close (watcher_status c)) = readChCloses c.
Proof.
  unfold watcher_close, watcher_status, close.
  destruct (setConnectionStatus_frame Disconnected c)
    as (_ & Hrh & _ & Hcl & _ & Hcn & _ & _ & _).
  pose proof (connectionStatus_setConnectionStatus Disconnected c) as Hst.
  destruct (ws _); simpl; rewrite Hrh, Hcl, Hcn, Hst; done.
Qed.

Lemma shutdown_run w :
  started w = true -> watcher w = WWaiting ->
  exists w',
    run w [AStop; AWatchStatus; AWatchClose; AWatchDrain] = Next w' /\
    conn w' = watcher_drain (watcher_close (watcher_status (cancel (conn w)))) /\
    watcher w' = WReturned /\ started w' = true.
Proof.
  intros Hst Hwt. eexists. cbn [run]. unfold step at 1. rewrite Hst.
  cbn [run]. unfold step at 1.
  cbn [watcher with_conn conn cancel cancelled emit with_cancelled].
  rewrite Hwt. cbn [run]. unfold step at 1. cbn [watcher with_watcher].
  cbn [run]. unfold step at 1. cbn [watcher with_watcher]. split; [done|]. done.
Qed.

(** X14: When [Connect] has returned a wait-group, [Stop] followed by the
    three sections of the watcher can always run, in any state: the
    status ends Disconnected, every handler pending at the drain has had
    its abort run, the registry is empty and the inbound channel is
    closed, for the first and only time.  A second [Stop] after that
    only cancels again. *)
Theorem shutdown_runs_through (w : World) :
  reachable w -> watcher w = WWaiting ->
  exists w',
    run w [AStop; AWatchStatus; AWatchClose; AWatchDrain] = Next w' /\
    watcher w' = WReturned /\ cancelled (conn w') = true /\
    connectionStatus (conn w') = Disconnected /\
    respHandlers (conn w') = ∅ /\
    readChCloses (conn w) = 0%nat /\ readChCloses (conn w') = 1%nat /\
    (forall id h, respHandlers (conn w) !! id = Some h ->
       In (EvAbort (abort h)) (trace (conn w'))) /\
    exists w'', step w' AStop = Next w'' /\
                readChCloses (conn w'') = 1%nat /\ watcher w'' = WReturned.
Proof.
  intros Hw Hwt.
  destruct (shutdown_invariant_reachable w Hw) as (_ & _ & I3 & _).
  destruct I3 as [Hcl Hst]; [auto|].
  destruct (shutdown_run w Hst Hwt) as (w' & Hrun & Hconn & Hwr & Hst').
  exists w'. split; [done|]. split; [done|].
  destruct (watcher_sections_frame (cancel (conn w))) as (Hs & Hrh & Hcn & Hcc).
  remember (watcher_close (watcher_status (cancel (conn w)))) as c3 eqn:Hc3.
  clear Hc3.
  rewrite Hconn. unfold watcher_drain, close_readCh, drain. rewrite drain_fold.
  simpl. rewrite drain_handlers_all, Hcn, Hs, Hcc. simpl. rewrite Hcl.
  repeat (split; [done|]). split.
  - intros id h Hl. right. apply in_app_iff. left. rewrite <- in_rev.
    apply In_drain_events. exists (id, h). split; [|auto].
    apply elem_of_map_to_list. rewrite Hrh. done.
  - eexists. unfold step. rewrite Hst'. split; [done|]. simpl.
    rewrite Hconn. unfold watcher_drain, close_readCh. simpl.
    unfold drain. rewrite drain_fold. simpl. rewrite Hcc. simpl. rewrite Hcl. done.
Qed.
(** ** Requests and their timers *)

Lemma outcomes_app tok l1 l2 :
  outcomes tok (l1 ++ l2) = (outcomes tok l1 + outcomes tok l2)%nat.
Proof. induction l1 as [|e l1 IH]; simpl; [done|]. rewrite IH. lia. Qed.

Lemma outcomes_drain tok l :
  outcomes tok (rev (drain_events l)) = count_aborts tok l.
Proof.
  induction l as [|ih l IH]; [done|]. simpl.
  rewrite !outcomes_app, IH. simpl. lia.
Qed.

Lemma In_LogReq_drain id tok l tr :
  In (EvLogReq id tok) (rev (drain_events l) ++ tr) <-> In (EvLogReq id tok) tr.
Proof.
  rewrite in_app_iff, <- in_rev, In_drain_events. split; [|auto].
  intros [(ih & _ & [?|?])|?]; done.
Qed.

(** What each step does, case by case. *)
Lemma step_effect w a w' :
  step w a = Next w' ->
  effect_quiet w w' \/ effect_register w w' \/ effect_take w w' \/
  effect_expire w w' \/ effect_drain w w'.
Proof.
  intros Hs.
  destruct a; step_cases;
    first
      [ left; unfold effect_quiet, same_registrations; simpl;
        split; [done|]; split; [intros; simpl; intuition discriminate|];
        split; [done|]; eauto 10; fail
      | right; left; unfold effect_register; simpl;
        eexists _, _, _; split; [done|]; split; [done|]; split; [done|];
        split; [done|]; intros; simpl; intuition discriminate
      | right; right; left; unfold effect_take, same_registrations; simpl;
        eexists _, _, true; split; [done|]; split; [done|]; split; [done|];
        split; [intros; simpl; intuition discriminate|]; intros; simpl; done
      | right; right; left; unfold effect_take, same_registrations; simpl;
        eexists _, _, false; split; [done|]; split; [done|]; split; [done|];
        split; [intros; simpl; intuition discriminate|]; intros; simpl; done
      | right; right; right; left; unfold effect_expire, same_registrations; simpl;
        eexists _, _, _, _; split; [done|]; split; [done|]; split; [done|];
        split; [done|]; split; [done|];
        split; [intros; simpl; intuition discriminate|];
        intros; simpl;
        match goal with
        | H : bool_decide (is_Some _) = _ |- _ => rewrite H
        end; simpl; done
      | right; right; right; right; unfold effect_drain, same_registrations; simpl;
        rewrite drain_handlers_all; split; [done|]; split; [done|];
        split; [intros; rewrite In_LogReq_drain; simpl; intuition discriminate|];
        intros; rewrite outcomes_app, outcomes_drain; done ].
Qed.

Lemma set_timer_state_func st tm : t_func (set_timer_state st tm) = t_func tm.
Proof. done. Qed.

Lemma stop_timer_lookup_ne t t' l : t <> t' -> stop_timer t l !! t' = l !! t'.
Proof.
  intros Hne. unfold stop_timer.
  destruct (l !! t) as [tm|]; [|done].
  destruct (t_state tm); [|done|done].
  by rewrite list_lookup_insert_ne.
Qed.

Lemma stop_timer_lookup_inv t t' l tm' :
  stop_timer t l !! t' = Some tm' ->
  exists tm, l !! t' = Some tm /\ t_func tm' = t_func tm /\
             (t_state tm' = Armed -> tm' = tm /\ t <> t').
Proof.
  unfold stop_timer. destruct (l !! t) as [tm|] eqn:Hl.
  - destruct (t_state tm) eqn:Hst.
    + destruct (decide (t = t')) as [->|Hne].
      * rewrite list_lookup_insert_eq by (by eapply lookup_lt_Some).
        intros [= <-]. exists tm. split; [done|]. split; [done|]. done.
      * rewrite list_lookup_insert_ne by done. intros H. exists tm'.
        split; [done|]. split; [done|]. done.
    + intros H. exists tm'. split; [done|]. split; [done|].
      intros Ha. split; [done|]. intros ->. congruence.
    + intros H. exists tm'. split; [done|]. split; [done|].
      intros Ha. split; [done|]. intros ->. congruence.
  - intros H. exists tm'. split; [done|]. split; [done|].
    intros Ha. split; [done|]. intros ->. congruence.
Qed.

Lemma drain_timers_lookup_inv l ts t' tm' :
  drain_timers l ts !! t' = Some tm' ->
  exists tm, ts !! t' = Some tm /\ t_func tm' = t_func tm /\
             (t_state tm' = Armed ->
              tm' = tm /\ forall ih, In ih l -> expiration ih.2 <> t').
Proof.
  revert ts. induction l as [|ih l IH]; intros ts; simpl.
  - intros H. exists tm'. repeat split; try done. 
  - intros H. destruct (IH _ H) as (tm1 & H1 & Hf1 & Ha1).
    destruct (stop_timer_lookup_inv _ _ _ _ H1) as (tm & H0 & Hf0 & Ha0).
    exists tm. split; [done|]. split; [congruence|].
    intros Ha. destruct (Ha1 Ha) as [-> Hall].
    destruct (Ha0 Ha) as [-> Hne]. split; [done|].
    intros ih' [<-|Hin]; [done|]. by apply Hall.
Qed.

Lemma count_aborts_pos tok l :
  count_aborts tok l <> 0%nat -> exists ih, In ih l /\ abort ih.2 = tok.
Proof.
  induction l as [|ih l IH]; simpl; [done|].
  destruct (bool_decide (abort ih.2 = tok)) eqn:Hb.
  - intros _. exists ih. split; [by left|]. by apply bool_decide_eq_true in Hb.
  - simpl. intros H. destruct (IH H) as (ih' & ? & ?). exists ih'. split; [by right|done].
Qed.

(** The registry invariant is kept by every step. *)
Lemma registry_invariant_step w a w' :
  reachable w -> registry_invariant w -> step w a = Next w' ->
  registry_invariant w'.
Proof.
  intros Hr (R1 & R2 & R3 & R5) Hs.
  destruct (callback_invariant_reachable w Hr) as (I1 & I2 & I3 & I4).
  destruct (step_effect _ _ _ Hs) as [E|[E|[E|[E|E]]]]; clear Hs.
  - (* nothing of the registry changes *)
    destruct E as (Hh & Hreg & Hout & Ht).
    assert (Hold : forall t tm' id tok, timers (conn w') !! t = Some tm' ->
              t_func tm' = DoExpire id tok ->
              timers (conn w) !! t = Some tm' \/
              exists tm, timers (conn w) !! t = Some tm /\
                         t_func tm = DoExpire id tok /\ t_state tm' <> Armed).
    { intros t tm' id tok Hl Hf.
      destruct Ht as [Ht|[(d & Ht)|(t0 & tm0 & Hl0 & Hf0 & Ht)]]; rewrite Ht in Hl.
      - by left.
      - apply lookup_app_Some in Hl as [Hl|[_ Hl]]; [by left|].
        apply list_lookup_singleton_Some in Hl as [_ <-]. done.
      - destruct (decide (t0 = t)) as [->|Hne].
        + rewrite list_lookup_insert_eq in Hl by (by eapply lookup_lt_Some).
          injection Hl as <-. simpl in Hf. congruence.
        + rewrite list_lookup_insert_ne in Hl by done. by left. }
    unfold registry_invariant. rewrite Hh.
    split; [|split; [|split]].
    + intros id h Hl. destruct (R1 _ _ Hl) as (Hab & d & Hd).
      split; [done|]. exists d.
      destruct Ht as [Ht|[(d' & Ht)|(t0 & tm0 & Hl0 & Hf0 & Ht)]]; rewrite Ht.
      * done.
      * by apply lookup_app_l_Some.
      * rewrite list_lookup_insert_ne; [done|]. intros ->.
        rewrite Hd in Hl0. injection Hl0 as <-. done.
    + intros t tm id tok Hl Hf. apply Hreg.
      destruct (Hold _ _ _ _ Hl Hf) as [H|(tm0 & H & Hf' & _)]; eapply R2; done.
    + intros t t' tm tm' id id' tok Hl Hl' Hf Hf'.
      destruct (Hold _ _ _ _ Hl Hf) as [H|(tm0 & H & Hf0 & _)];
        destruct (Hold _ _ _ _ Hl' Hf') as [H'|(tm0' & H' & Hf0' & _)];
        eapply R3; done.
    + intros tok. rewrite Hout. intros Hn.
      destruct (R5 _ Hn) as ((id & Hid) & Hnh & Hnt).
      split; [exists id; by apply Hreg|]. split; [done|].
      intros t tm id' Hl Hf.
      destruct (Hold _ _ _ _ Hl Hf) as [H|(tm0 & H & Hf0 & Hna)]; [|done].
      eapply Hnt; done.
  - (* logReq *)
    destruct E as (id & tok & d & Hc & Hh & Ht & Hout & Hreg).
    assert (Hfresh : forall id', ~ In (EvLogReq id' tok) (trace (conn w))).
    { intros id' Hin. destruct (I3 _ _ Hin) as [x Hx]. congruence. }
    assert (Hzero : outcomes tok (trace (conn w)) = 0%nat).
    { destruct (Nat.eq_dec (outcomes tok (trace (conn w))) 0%nat) as [Hz|Hn]; [done|].
      destruct (R5 _ Hn) as ((id' & Hid) & _). by destruct (Hfresh id'). }
    assert (Hold : forall t tm' id' tok', timers (conn w') !! t = Some tm' ->
              t_func tm' = DoExpire id' tok' ->
              timers (conn w) !! t = Some tm' \/
              (t = length (timers (conn w)) /\ id' = id /\ tok' = tok)).
    { intros t tm' id' tok' Hl Hf. rewrite Ht in Hl.
      apply lookup_app_Some in Hl as [Hl|[Hge Hl]]; [by left|].
      apply list_lookup_singleton_Some in Hl as [Hz <-]. simpl in Hf.
      injection Hf as <- <-. right. split; [lia|done]. }
    unfold registry_invariant. rewrite Hh, Ht.
    split; [|split; [|split]].
    + intros id0 h Hl. apply lookup_insert_Some in Hl as [[<- <-]|[Hne Hl]].
      * split; [done|]. exists d. simpl.
        rewrite lookup_app_r by lia. by rewrite Nat.sub_diag.
      * destruct (R1 _ _ Hl) as (Hab & d' & Hd).
        split; [done|]. exists d'. by apply lookup_app_l_Some.
    + intros t tm id0 tok0 Hl Hf. rewrite <- Ht in Hl. apply Hreg.
      destruct (Hold _ _ _ _ Hl Hf) as [H|(-> & -> & ->)]; [|by left].
      right. eapply R2; done.
    + intros t t' tm tm' id0 id0' tok0 Hl Hl' Hf Hf'. rewrite <- Ht in Hl, Hl'.
      destruct (Hold _ _ _ _ Hl Hf) as [H|(-> & -> & ->)];
        destruct (Hold _ _ _ _ Hl' Hf') as [H'|(Ht' & Hi' & Hk')].
      * eapply R3; done.
      * subst. destruct (Hfresh id0). eapply R2; done.
      * destruct (Hfresh id0'). eapply R2; done.
      * done.
    + intros tok0. rewrite Hout. intros Hn.
      destruct (R5 _ Hn) as ((id' & Hid) & Hnh & Hnt).
      assert (tok0 <> tok) by congruence.
      split; [exists id'; apply Hreg; by right|]. split.
      * intros id0 h Hl. apply lookup_insert_Some in Hl as [[<- <-]|[Hne Hl]].
        -- simpl. congruence.
        -- by eapply Hnh.
      * intros t tm id0 Hl Hf. rewrite <- Ht in Hl.
        destruct (Hold _ _ _ _ Hl Hf) as [H'|(Ht' & Hi' & Hk')]; [|done].
        eapply Hnt; done.
  - (* respHandler took an entry *)
    destruct E as (id & h & ran & Hl0 & Hh & Ht & Hreg & Hout).
    destruct (R1 _ _ Hl0) as (Hab0 & d0 & Hd0).
    assert (Hold : forall t tm', timers (conn w') !! t = Some tm' ->
              exists tm, timers (conn w) !! t = Some tm /\ t_func tm' = t_func tm /\
                         (t_state tm' = Armed -> tm' = tm /\ expiration h <> t)).
    { intros t tm' Hl. rewrite Ht in Hl. by apply stop_timer_lookup_inv. }
    unfold registry_invariant. rewrite Hh.
    split; [|split; [|split]].
    + intros id1 h1 Hl. apply lookup_delete_Some in Hl as [Hne Hl].
      destruct (R1 _ _ Hl) as (Hab & d & Hd).
      split; [done|]. exists d. rewrite Ht, stop_timer_lookup_ne; [done|].
      intros Heq. rewrite Heq, Hd in Hd0. congruence.
    + intros t tm id1 tok1 Hl Hf. apply Hreg.
      destruct (Hold _ _ Hl) as (tm0 & H & Hf0 & _).
      eapply R2; [done|]. congruence.
    + intros t t' tm tm' id1 id1' tok1 Hl Hl' Hf Hf'.
      destruct (Hold _ _ Hl) as (tm0 & H & Hf0 & _).
      destruct (Hold _ _ Hl') as (tm0' & H' & Hf0' & _).
      eapply (R3 t t' tm0 tm0' id1 id1' tok1); [done|done|congruence|congruence].
    + intros tok1. rewrite Hout. intros Hn.
      destruct (decide (f h = tok1)) as [<-|Hne].
      * split; [exists id; apply Hreg; by apply I1|]. split.
        -- intros id1 h1 Hl Hf1. apply lookup_delete_Some in Hl as [Hne Hl].
           destruct (R1 _ _ Hl) as (_ & d1 & Hd1). rewrite Hf1 in Hd1.
           assert (He : expiration h1 = expiration h) by (eapply R3; done).
           rewrite He, Hd0 in Hd1. congruence.
        -- intros t tm id1 Hl Hf Ha.
           destruct (Hold _ _ Hl) as (tm0 & H & Hf0 & Harm).
           destruct (Harm Ha) as [-> Hx]. apply Hx. eapply R3; done.
      * rewrite bool_decide_eq_false_2, andb_false_r in Hn by done.
        destruct (R5 _ Hn) as ((id' & Hid) & Hnh & Hnt).
        split; [exists id'; by apply Hreg|]. split.
        -- intros id1 h1 Hl. apply lookup_delete_Some in Hl as [_ Hl]. by eapply Hnh.
        -- intros t tm id1 Hl Hf Ha.
           destruct (Hold _ _ Hl) as (tm0 & H & Hf0 & Harm).
           destruct (Harm Ha) as [-> Hx]. eapply Hnt; done.
  - (* a request timer fired *)
    destruct E as (t0 & tm0 & id & tok & Hl0 & Ha0 & Hf0 & Ht & Hh & Hreg & Hout).
    assert (Hold : forall t tm', timers (conn w') !! t = Some tm' ->
              exists tm, timers (conn w) !! t = Some tm /\ t_func tm' = t_func tm /\
                         (t_state tm' = Armed -> tm' = tm /\ t0 <> t)).
    { intros t tm' Hl. rewrite Ht in Hl.
      destruct (decide (t0 = t)) as [->|Hne].
      - rewrite list_lookup_insert_eq in Hl by (by eapply lookup_lt_Some).
        injection Hl as <-. exists tm0. split; [done|]. split; [done|]. done.
      - rewrite list_lookup_insert_ne in Hl by done.
        exists tm'. split; [done|]. split; [done|]. done. }
    unfold registry_invariant. rewrite Hh.
    split; [|split; [|split]].
    + intros id1 h1 Hl. apply lookup_delete_Some in Hl as [Hne Hl].
      destruct (R1 _ _ Hl) as (Hab & d & Hd).
      split; [done|]. exists d. rewrite Ht, list_lookup_insert_ne; [done|].
      intros Heq. rewrite Heq, Hd in Hl0. injection Hl0 as <-.
      simpl in Hf0. congruence.
    + intros t tm id1 tok1 Hl Hf. apply Hreg.
      destruct (Hold _ _ Hl) as (tm1 & H & Hf1 & _).
      eapply R2; [done|]. congruence.
    + intros t t' tm tm' id1 id1' tok1 Hl Hl' Hf Hf'.
      destruct (Hold _ _ Hl) as (tm1 & H & Hf1 & _).
      destruct (Hold _ _ Hl') as (tm1' & H' & Hf1' & _).
      eapply (R3 t t' tm1 tm1' id1 id1' tok1); [done|done|congruence|congruence].
    + intros tok1. rewrite Hout. intros Hn.
      destruct (decide (tok = tok1)) as [<-|Hne].
      * split; [exists id; apply Hreg; eapply R2; done|]. split.
        -- intros id1 h1 Hl Hf1. apply lookup_delete_Some in Hl as [Hne Hl].
           destruct (R1 _ _ Hl) as (_ & d1 & Hd1). rewrite Hf1 in Hd1.
           assert (He : expiration h1 = t0) by (eapply R3; done).
           rewrite He, Hl0 in Hd1. injection Hd1 as ->. simpl in Hf0. congruence.
        -- intros t tm id1 Hl Hf Ha.
           destruct (Hold _ _ Hl) as (tm1 & H & Hf1 & Harm).
           destruct (Harm Ha) as [-> Hx]. apply Hx. eapply R3; done.
      * rewrite (bool_decide_eq_false_2 (tok = tok1)), andb_false_r in Hn by done.
        destruct (R5 _ Hn) as ((id' & Hid) & Hnh & Hnt).
        split; [exists id'; by apply Hreg|]. split.
        -- intros id1 h1 Hl. apply lookup_delete_Some in Hl as [_ Hl]. by eapply Hnh.
        -- intros t tm id1 Hl Hf Ha.
           destruct (Hold _ _ Hl) as (tm1 & H & Hf1 & Harm).
           destruct (Harm Ha) as [-> Hx]. eapply Hnt; done.
  - (* the shutdown drain *)
    destruct E as (Hh & Ht & Hreg & Hout).
    assert (Hold : forall t tm', timers (conn w') !! t = Some tm' ->
              exists tm, timers (conn w) !! t = Some tm /\ t_func tm' = t_func tm /\
                         (t_state tm' = Armed ->
                          tm' = tm /\
                          forall ih, In ih (map_to_list (respHandlers (conn w))) ->
                                     expiration ih.2 <> t)).
    { intros t tm' Hl. rewrite Ht in Hl. by apply drain_timers_lookup_inv. }
    assert (Hmem : forall ih, In ih (map_to_list (respHandlers (conn w))) ->
                              respHandlers (conn w) !! ih.1 = Some ih.2).
    { intros [i h] Hin. apply list_elem_of_In in Hin.
      by apply elem_of_map_to_list in Hin. }
    assert (Hpos : forall tok, count_aborts tok (map_to_list (respHandlers (conn w))) <> 0%nat ->
              outcomes tok (trace (conn w)) = 0%nat /\
              exists ih, In ih (map_to_list (respHandlers (conn w))) /\ f ih.2 = tok).
    { intros tok Hc. destruct (count_aborts_pos _ _ Hc) as (ih & Hin & Hab).
      pose proof (Hmem _ Hin) as Hl. destruct (R1 _ _ Hl) as (Hab' & _).
      split; [|exists ih; split; [done|congruence]].
      destruct (Nat.eq_dec (outcomes tok (trace (conn w))) 0%nat) as [Hz|Hn]; [done|].
      destruct (R5 _ Hn) as (_ & Hnh & _). destruct (Hnh _ _ Hl). congruence. }
    unfold registry_invariant. rewrite Hh.
    split; [|split; [|split]].
    + intros id h Hl. by rewrite lookup_empty in Hl.
    + intros t tm id1 tok1 Hl Hf. apply Hreg.
      destruct (Hold _ _ Hl) as (tm1 & H & Hf1 & _).
      eapply R2; [done|]. congruence.
    + intros t t' tm tm' id1 id1' tok1 Hl Hl' Hf Hf'.
      destruct (Hold _ _ Hl) as (tm1 & H & Hf1 & _).
      destruct (Hold _ _ Hl') as (tm1' & H' & Hf1' & _).
      eapply (R3 t t' tm1 tm1' id1 id1' tok1); [done|done|congruence|congruence].
    + intros tok. rewrite Hout. intros Hn.
      destruct (Nat.eq_dec (count_aborts tok (map_to_list (respHandlers (conn w)))) 0%nat)
        as [Hz|Hc].
      * rewrite Hz in Hn. destruct (R5 _ Hn) as ((id' & Hid) & Hnh & Hnt).
        split; [exists id'; by apply Hreg|]. split.
        -- intros id1 h1 Hl. by rewrite lookup_empty in Hl.
        -- intros t tm id1 Hl Hf Ha.
           destruct (Hold _ _ Hl) as (tm1 & H & Hf1 & Harm).
           destruct (Harm Ha) as [-> Hx]. eapply Hnt; done.
      * destruct (Hpos _ Hc) as (_ & [i h] & Hin & Hfh). simpl in Hfh.
        pose proof (Hmem _ Hin) as Hl. simpl in Hl.
        destruct (R1 _ _ Hl) as (Ha & d & Hd).
        split; [exists i; apply Hreg; rewrite <- Hfh; by apply I1|]. split.
        -- intros id1 h1 Hl1. by rewrite lookup_empty in Hl1.
        -- intros t tm id1 Hl1 Hf Harm1.
           destruct (Hold _ _ Hl1) as (tm1 & H & Hf1 & Harm).
           destruct (Harm Harm1) as [-> Hx]. apply (Hx _ Hin). simpl.
           eapply (R3 _ _ _ _ i id1 tok); [exact Hd|exact H|simpl; congruence|done].
Qed.
Lemma registry_invariant_reachable w : reachable w -> registry_invariant w.
Proof.
  apply reachable_invariant.
  - unfold registry_invariant. simpl. repeat split; try done; try lia.
    all: intros; try by rewrite lookup_empty in *.
  - intros ? ? ?. apply registry_invariant_step.
Qed.

(** X15 (logReq, respHandler, expire, Connect): in every reachable state
    a handler in the registry under [id] holds the timer that [logReq]
    armed for it: that timer has not fired and has not been stopped, it
    runs [doExpire] for that [id], and the handler's abort is the expire
    function of the call that supplied its callback. *)
Theorem pending_handler_timer_armed w id h :
  reachable w ->
  respHandlers (conn w) !! id = Some h ->
  abort h = f h /\
  exists d, timers (conn w) !! expiration h
            = Some (mkTimer (DoExpire id (f h)) d Armed).
Proof.
  intros Hr Hl. destruct (registry_invariant_reachable w Hr) as (R1 & _).
  by apply R1.
Qed.

(** X17 (respHandler, expire, Connect): once a closure of a request call
    has run, the call was registered by [logReq], no handler of it is
    left in the registry and no timer of it is armed. *)
Theorem outcome_clears_request w tok :
  reachable w ->
  outcomes tok (trace (conn w)) <> 0%nat ->
  (exists id, In (EvLogReq id tok) (trace (conn w))) /\
  (forall id h, respHandlers (conn w) !! id = Some h -> f h <> tok) /\
  (forall t tm id, timers (conn w) !! t = Some tm ->
     t_func tm = DoExpire id tok -> t_state tm <> Armed).
Proof.
  intros Hr Hn.
  destruct (registry_invariant_reachable w Hr) as (_ & _ & _ & R5).
  by apply R5.
Qed.

(** ** One read loop *)

(** X18 (connect, read, handleReadError, keepAlive): at most one read
    loop runs at any time and at most one reconnect timer is armed.
    While [keepAlive] is dialling, and while a reconnect trigger is
    waiting in the channel or in an armed timer, no read loop runs: the
    read loop that asked for the reconnect has returned before
    [connect] starts the next one. *)
Theorem one_read_loop (w : World) :
  reachable w ->
  (readers (conn w) <= 1)%nat /\
  (armedPost (timers (conn w)) <= 1)%nat /\
  (forall rcInt, keepAlive w = KAConnect rcInt ->
     readers (conn w) = 0%nat /\ reconnectCh (conn w) = 0%nat /\
     armedPost (timers (conn w)) = 0%nat) /\
  (reconnectCh (conn w) <> 0%nat \/ armedPost (timers (conn w)) <> 0%nat ->
   readers (conn w) = 0%nat) /\
  (started w = false -> readers (conn w) = 0%nat).
Proof.
  intros Hw. destruct (trigger_invariant_reachable w Hw) as [Hle H0].
  unfold trigger_sources in Hle, H0.
  split; [lia|]. split; [lia|]. split; [|split].
  - intros rcInt Hk. rewrite Hk in Hle. lia.
  - intros [H|H]; lia.
  - intros Hst. specialize (H0 Hst). lia.
Qed.

End Transport.

(* ===================================================================== *)
(** * Sample executions                                                   *)
(* ===================================================================== *)

Definition world_after (cfg : WsCfg) (sched : list action) : World :=
  match run cfg sampleMarshal initial sched with
  | Next w => w
  | _ => initial
  end.

(** A connection that is up, with one caller inside [SendRaw]. *)
Definition sampleConnected : World :=
  world_after defaultCfg [AConnect (DialOK 1%nat); ASendRaw 0%nat "ping"; ACheck 0%nat].

Lemma reachable_world_after cfg sched w :
  run cfg sampleMarshal initial sched = Next w ->
  reachable cfg sampleMarshal (world_after cfg sched).
Proof.
  intros H. unfold world_after. rewrite H.
  apply (reachable_run cfg sampleMarshal initial sched); [constructor | exact H].
Defined.

Lemma RequestWithTimeout_not_request_witness :
  Type_ lateResponse <> Request /\
  RequestWithTimeout sampleMarshal 1%nat lateResponse time_Minute WriteOK NewWsConn
  = Ok (NewWsConn, Some errNotRequest).
Proof.
  split; [discriminate|].
  apply (RequestWithTimeout_not_request sampleMarshal). discriminate.
Defined.

Lemma marshal_failure_witness :
  sampleMarshal badRequest = inr errBadPayload /\
  IsDown (conn sampleConnected) = false /\ Type_ badRequest = Request /\
  Send sampleMarshal badRequest WriteOK (conn sampleConnected)
  = Ok (emit (EvLog "Failed to marshal message") (conn sampleConnected),
        Some errBadPayload) /\
  RequestWithTimeout sampleMarshal 1%nat badRequest time_Minute WriteOK
    (conn sampleConnected)
  = Ok (emit (EvLog "Failed to marshal message") (conn sampleConnected),
        Some errBadPayload) /\
  respHandlers (emit (EvLog "Failed to marshal message") (conn sampleConnected))
  = respHandlers (conn sampleConnected).
Proof.
  assert (Hm : sampleMarshal badRequest = inr errBadPayload) by reflexivity.
  assert (Hd : IsDown (conn sampleConnected) = false) by reflexivity.
  assert (Ht : Type_ badRequest = Request) by reflexivity.
  split; [exact Hm|]. split; [exact Hd|]. split; [exact Ht|].
  destruct (marshal_failure sampleMarshal 1%nat badRequest time_Minute WriteOK
              (conn sampleConnected) errBadPayload Hm) as (T1 & T2 & _).
  split; [exact (T1 Hd)|]. split; [exact (T2 Ht) | reflexivity].
Defined.

Lemma connected_has_socket_witness :
  reachable defaultCfg sampleMarshal sampleConnected /\
  (connectionStatus (conn sampleConnected) = Connected ->
   is_Some (ws (conn sampleConnected))) /\
  (forall a, step defaultCfg sampleMarshal sampleConnected a <> Crash NilSocket).
Proof.
  assert (H : reachable defaultCfg sampleMarshal sampleConnected).
  { eapply reachable_world_after. vm_compute. reflexivity. }
  split; [exact H|].
  pose proof (connected_has_socket defaultCfg sampleMarshal sampleConnected H) as T.
  split; [apply T | apply T].
Defined.

(** A request was sent and its response dispatched. *)
Definition sampleAnswered : World :=
  world_after defaultCfg
    [AConnect (DialOK 1%nat); ARequestRaw 0%nat 7%N "req" time_Minute;
     ACheck 0%nat; AWrite 0%nat WriteOK; AReadMsg lateResponse].

Lemma callback_message_matches_request_witness :
  reachable defaultCfg sampleMarshal sampleAnswered /\
  In (EvCallback 0%nat lateResponse) (trace (conn sampleAnswered)) /\
  forall tok msg, In (EvCallback tok msg) (trace (conn sampleAnswered)) ->
    Type_ msg = Response /\
    In (EvLogReq (ID msg) tok) (trace (conn sampleAnswered)) /\
    forall id, In (EvLogReq id tok) (trace (conn sampleAnswered)) -> id = ID msg.
Proof.
  assert (H : reachable defaultCfg sampleMarshal sampleAnswered).
  { eapply reachable_world_after. vm_compute. reflexivity. }
  split; [exact H|]. split; [vm_compute; auto|].
  apply (callback_message_matches_request defaultCfg sampleMarshal sampleAnswered H).
Defined.

Definition errReadTimeout : goerror :=
  GoError [NetOpError "read" "i/o timeout" true] "read tcp 127.0.0.1:7232: i/o timeout".





(** A caller has registered a handler and not yet entered [SendRaw] when
    the first dial fails on the certificate. *)
Definition samplePendingAtClose : World :=
  world_after defaultCfg
    [ARequestRaw 0%nat 7%N "req" time_Minute; AConnect (DialErr errUnknownAuthority)].


(** C1 fails on the code: a call of RequestRawWithTimeout returns a
    non-nil error although the expire function of that very call has run.
    In the first run the shutdown drain runs it as the abort between
    [logReq] and [SendRaw]; in the second the expiry timer fires
    there. *)
Theorem request_fails_after_expire_ran :
  (exists w,
     run defaultCfg sampleMarshal initial
       [AConnect (DialOK 1%nat); ARequestRaw 0%nat 7%N "req" time_Minute;
        AStop; AWatchStatus; AWatchClose; AWatchDrain;
        ACheck 0%nat; AUnregister 0%nat] = Next w /\
     callers w !! 0%nat = Some (PReturned (Some errBroken)) /\
     In (EvReturn 0%nat (Some errBroken)) (trace (conn w)) /\
     In (EvAbort 0%nat) (trace (conn w)))
  /\
  (exists w,
     run defaultCfg sampleMarshal initial
       [ARequestRaw 0%nat 7%N "req" 0; ATimerFire 0%nat;
        ACheck 0%nat; AUnregister 0%nat] = Next w /\
     callers w !! 0%nat = Some (PReturned (Some errBroken)) /\
     In (EvReturn 0%nat (Some errBroken)) (trace (conn w)) /\
     In (EvExpire 0%nat) (trace (conn w))).
Proof.
  split; eexists; (split; [vm_compute; reflexivity|]);
    (split; [vm_compute; reflexivity|]); split; vm_compute; auto 10.
Qed.

(* ===================================================================== *)
(** * More sample executions                                              *)
(* ===================================================================== *)

Definition rawCfg : WsCfg := mkCfg "" false false true false.
Definition singleShotCfg : WsCfg := mkCfg "" false false false true.

Definition reconnectSchedule (r : dialResult) : list action :=
  [AConnect (DialOK 1%nat); AReadErr errReadTimeout; AReaderSend;
   AKeepAliveRecv; AKeepAliveConnect r].

Definition sampleBackoff : World :=
  world_after defaultCfg (reconnectSchedule (DialErr errRefused)).

Definition sampleRaw : World :=
  world_after rawCfg
    [AConnect (DialOK 1%nat); ARequestRaw 0%nat 7%N "req" time_Minute;
     ACheck 0%nat; AWrite 0%nat WriteOK; AReadRaw "resp"].

Definition sampleSingleShot : World :=
  world_after singleShotCfg [AConnect (DialOK 1%nat); AReadErr errReadTimeout].

Definition sampleRequested : World :=
  world_after defaultCfg
    [AConnect (DialOK 1%nat); ARequestRaw 0%nat 7%N "req" time_Minute;
     ACheck 0%nat; AWrite 0%nat WriteOK].

Definition inboundSchedule : list action :=
  [AConnect (DialOK 1%nat); AReadMsg goodRequest; AReadMsg lateResponse;
   AReadMsg goodRequest].

Lemma SendRaw_nil_means_sent_witness :
  SendRaw "ping" WriteOK (conn sampleConnected)
  = Ok (emit (EvWrite 1%nat "ping") (conn sampleConnected), None) /\
  connectionStatus (conn sampleConnected) = Connected /\
  ws (conn sampleConnected) = Some 1%nat.
Proof.
  assert (H : SendRaw "ping" WriteOK (conn sampleConnected)
              = Ok (emit (EvWrite 1%nat "ping") (conn sampleConnected), None))
    by reflexivity.
  split; [exact H|].
  destruct (SendRaw_nil_means_sent _ _ _ _ _ H) as (T & _ & _ & T' & _).
  destruct (T eq_refl) as (T1 & _). split; [exact T1 | exact T'].
Defined.

Lemma Send_nil_means_sent_witness :
  Send sampleMarshal goodRequest WriteOK (conn sampleConnected)
  = Ok (emit (EvWrite 1%nat "{}") (conn sampleConnected), None) /\
  connectionStatus (conn sampleConnected) = Connected /\
  exists b s, sampleMarshal goodRequest = inl b /\
              ws (conn sampleConnected) = Some s /\
              emit (EvWrite 1%nat "{}") (conn sampleConnected)
              = emit (EvWrite s b) (conn sampleConnected).
Proof.
  assert (H : Send sampleMarshal goodRequest WriteOK (conn sampleConnected)
              = Ok (emit (EvWrite 1%nat "{}") (conn sampleConnected), None))
    by reflexivity.
  split; [exact H|].
  exact (Send_nil_means_sent sampleMarshal goodRequest WriteOK _ _ H).
Defined.

Lemma RequestWithTimeout_sent_witness :
  Type_ goodRequest = Request /\ sampleMarshal goodRequest = inl "{}" /\
  connectionStatus (conn sampleConnected) = Connected /\
  ws (conn sampleConnected) = Some 1%nat /\
  RequestWithTimeout sampleMarshal 1%nat goodRequest time_Minute WriteOK
    (conn sampleConnected)
  = Ok (emit (EvWrite 1%nat "{}")
          (logReq (ID goodRequest) 1%nat time_Minute (conn sampleConnected)), None).
Proof.
  repeat (split; [reflexivity|]).
  apply (RequestWithTimeout_sent sampleMarshal 1%nat goodRequest time_Minute
           (conn sampleConnected) "{}" 1%nat); reflexivity.
Defined.

Definition sampleFailedRequest : wsConn :=
  match RequestRawWithTimeout 1%nat 7%N "again" time_Minute (WriteErr errRefused)
          (conn sampleRequested) with
  | Ok (c, _) => c
  | Panic _ => NewWsConn
  end.

Lemma RequestRawWithTimeout_failed_witness :
  RequestRawWithTimeout 1%nat 7%N "again" time_Minute (WriteErr errRefused)
    (conn sampleRequested) = Ok (sampleFailedRequest, Some errRefused) /\
  respHandlers (conn sampleRequested) !! 7%N = Some (mkHandler 0 0 0) /\
  respHandlers sampleFailedRequest = delete 7%N (respHandlers (conn sampleRequested)) /\
  writes (trace sampleFailedRequest) = writes (trace (conn sampleRequested)).
Proof.
  assert (H : RequestRawWithTimeout 1%nat 7%N "again" time_Minute (WriteErr errRefused)
                (conn sampleRequested) = Ok (sampleFailedRequest, Some errRefused))
    by (vm_compute; reflexivity).
  split; [exact H|]. split; [vm_compute; reflexivity|].
  destruct (RequestRawWithTimeout_failed _ _ _ _ _ _ _ _ H) as (T1 & _ & T2 & _).
  split; [exact T1 | exact T2].
Defined.

Lemma NextID_distinct_witness :
  (N.of_nat 5 < uint64_modulus)%N /\
  (NextID_calls 5 0).1 = [1; 2; 3; 4; 5]%N /\ NoDup (NextID_calls 5 0).1.
Proof.
  assert (H : (N.of_nat 5 < uint64_modulus)%N) by (vm_compute; reflexivity).
  split; [exact H|].
  destruct (NextID_distinct 5 H) as (T1 & T2 & _). split; [exact T1 | exact T2].
Defined.

Lemma raw_mode_bypasses_registry_witness :
  reachable rawCfg sampleMarshal sampleRaw /\ RawHandler rawCfg = true /\
  respHandlers (conn sampleRaw) !! 7%N = Some (mkHandler 0 0 0) /\
  readCh (conn sampleRaw) = [] /\
  (forall tok msg, ~ In (EvCallback tok msg) (trace (conn sampleRaw))) /\
  step rawCfg sampleMarshal sampleRaw (AReadMsg lateResponse) = Disabled.
Proof.
  assert (H : reachable rawCfg sampleMarshal sampleRaw).
  { eapply reachable_world_after. vm_compute. reflexivity. }
  split; [exact H|]. split; [reflexivity|]. split; [vm_compute; reflexivity|].
  destruct (raw_mode_bypasses_registry rawCfg sampleMarshal sampleRaw H eq_refl)
    as (T1 & T2 & T3 & _).
  split; [exact T1|]. split; [exact T2 | exact (T3 lateResponse)].
Defined.

Definition sampleInbound : World := world_after defaultCfg inboundSchedule.

Lemma inbound_order_witness :
  run defaultCfg sampleMarshal initial inboundSchedule = Next sampleInbound /\
  readCh (conn sampleInbound) = [goodRequest; goodRequest] /\
  exists delivered,
    readCh (conn sampleInbound) = (readCh (conn initial) ++ delivered)%list /\
    sublist delivered (omap delivered_by inboundSchedule) /\
    Forall (fun msg => Type_ msg <> Response) delivered.
Proof.
  assert (H : run defaultCfg sampleMarshal initial inboundSchedule = Next sampleInbound)
    by (vm_compute; reflexivity).
  split; [exact H|]. split; [vm_compute; reflexivity|].
  exact (inbound_order defaultCfg sampleMarshal initial inboundSchedule sampleInbound H).
Defined.

Lemma reconnect_delay_bounds_witness :
  reachable defaultCfg sampleMarshal sampleBackoff /\
  keepAlive sampleBackoff = KASelect (10 * time_Second) /\
  timers (conn sampleBackoff) = [mkTimer PostReconnect (5 * time_Second) Armed] /\
  (forall rcInt, keepAlive sampleBackoff = KASelect rcInt \/
                 keepAlive sampleBackoff = KAConnect rcInt ->
     5 * time_Second <= rcInt <= 60 * time_Second /\
     (rcInt mod (5 * time_Second) = 0)%Z).
Proof.
  assert (H : reachable defaultCfg sampleMarshal sampleBackoff).
  { eapply reachable_world_after. vm_compute. reflexivity. }
  split; [exact H|]. split; [vm_compute; reflexivity|].
  split; [vm_compute; reflexivity|].
  destruct (reconnect_delay_bounds defaultCfg sampleMarshal sampleBackoff H) as [T _].
  exact T.
Defined.

Lemma single_shot_connect_witness :
  reachable singleShotCfg sampleMarshal sampleSingleShot /\
  DisableAutoReconnect singleShotCfg = true /\
  connectionStatus (conn sampleSingleShot) = Disconnected /\
  keepAlive sampleSingleShot = KANotStarted /\
  reconnectCh (conn sampleSingleShot) = 0%nat /\
  (forall r, step singleShotCfg sampleMarshal sampleSingleShot (AKeepAliveConnect r)
             = Disabled).
Proof.
  assert (H : reachable singleShotCfg sampleMarshal sampleSingleShot).
  { eapply reachable_world_after. vm_compute. reflexivity. }
  split; [exact H|]. split; [reflexivity|]. split; [vm_compute; reflexivity|].
  destruct (single_shot_connect singleShotCfg sampleMarshal sampleSingleShot H eq_refl)
    as (T1 & T2 & _ & _ & T3 & _).
  split; [exact T1|]. split; [exact T2 | exact T3].
Defined.

Lemma hard_failure_is_final_witness :
  reachable defaultCfg sampleMarshal samplePendingAtClose /\
  started samplePendingAtClose = true /\ watcher samplePendingAtClose = WNotStarted /\
  IsDown (conn samplePendingAtClose) = true /\
  cancelled (conn samplePendingAtClose) = true /\
  readChCloses (conn samplePendingAtClose) = 1%nat /\
  (forall a w', step defaultCfg sampleMarshal samplePendingAtClose a = Next w' ->
     connectionStatus (conn w') = connectionStatus (conn samplePendingAtClose)).
Proof.
  assert (H : reachable defaultCfg sampleMarshal samplePendingAtClose).
  { eapply reachable_world_after. vm_compute. reflexivity. }
  split; [exact H|]. split; [vm_compute; reflexivity|].
  split; [vm_compute; reflexivity|].
  destruct (hard_failure_is_final defaultCfg sampleMarshal samplePendingAtClose H)
    as [_ T].
  destruct (T ltac:(vm_compute; reflexivity) ltac:(vm_compute; reflexivity))
    as (T1 & T2 & T3 & _ & _ & _ & T4).
  split; [exact T1|]. split; [exact T2|]. split; [exact T3|].
  intros a w' Hs. exact (proj1 (T4 a w' Hs)).
Defined.

Lemma shutdown_runs_through_witness :
  reachable defaultCfg sampleMarshal sampleRequested /\
  watcher sampleRequested = WWaiting /\
  respHandlers (conn sampleRequested) !! 7%N = Some (mkHandler 0 0 0) /\
  exists w',
    run defaultCfg sampleMarshal sampleRequested
      [AStop; AWatchStatus; AWatchClose; AWatchDrain] = Next w' /\
    respHandlers (conn w') = ∅ /\ readChCloses (conn w') = 1%nat /\
    In (EvAbort 0%nat) (trace (conn w')).
Proof.
  assert (H : reachable defaultCfg sampleMarshal sampleRequested).
  { eapply reachable_world_after. vm_compute. reflexivity. }
  assert (Hh : respHandlers (conn sampleRequested) !! 7%N = Some (mkHandler 0 0 0))
    by (vm_compute; reflexivity).
  split; [exact H|]. split; [vm_compute; reflexivity|]. split; [exact Hh|].
  destruct (shutdown_runs_through defaultCfg sampleMarshal sampleRequested H
              ltac:(vm_compute; reflexivity))
    as (w' & T1 & _ & _ & _ & T2 & _ & T3 & T4 & _).
  exists w'. split; [exact T1|]. split; [exact T2|]. split; [exact T3|].
  exact (T4 _ _ Hh).
Defined.

Lemma pending_handler_timer_armed_witness :
  reachable defaultCfg sampleMarshal sampleRequested /\
  respHandlers (conn sampleRequested) !! 7%N = Some (mkHandler 0 0 0) /\
  exists d, timers (conn sampleRequested) !! 0%nat
            = Some (mkTimer (DoExpire 7%N 0%nat) d Armed).
Proof.
  assert (H : reachable defaultCfg sampleMarshal sampleRequested).
  { eapply reachable_world_after. vm_compute. reflexivity. }
  assert (Hh : respHandlers (conn sampleRequested) !! 7%N = Some (mkHandler 0 0 0))
    by (vm_compute; reflexivity).
  split; [exact H|]. split; [exact Hh|].
  exact (proj2 (pending_handler_timer_armed defaultCfg sampleMarshal sampleRequested
                  7%N (mkHandler 0 0 0) H Hh)).
Defined.

Lemma outcome_clears_request_witness :
  reachable defaultCfg sampleMarshal sampleAnswered /\
  outcomes 0%nat (trace (conn sampleAnswered)) <> 0%nat /\
  (exists id, In (EvLogReq id 0%nat) (trace (conn sampleAnswered))) /\
  (forall id h, respHandlers (conn sampleAnswered) !! id = Some h -> f h <> 0%nat) /\
  (forall t tm id, timers (conn sampleAnswered) !! t = Some tm ->
     t_func tm = DoExpire id 0%nat -> t_state tm <> Armed).
Proof.
  assert (H : reachable defaultCfg sampleMarshal sampleAnswered).
  { eapply reachable_world_after. vm_compute. reflexivity. }
  assert (Hn : outcomes 0%nat (trace (conn sampleAnswered)) <> 0%nat)
    by (vm_compute; discriminate).
  split; [exact H|]. split; [exact Hn|].
  exact (outcome_clears_request defaultCfg sampleMarshal sampleAnswered 0%nat H Hn).
Defined.

Lemma one_read_loop_witness :
  reachable defaultCfg sampleMarshal sampleBackoff /\
  armedPost (timers (conn sampleBackoff)) = 1%nat /\
  readers (conn sampleBackoff) = 0%nat.
Proof.
  assert (H : reachable defaultCfg sampleMarshal sampleBackoff).
  { eapply reachable_world_after. vm_compute. reflexivity. }
  assert (Ha : armedPost (timers (conn sampleBackoff)) = 1%nat)
    by (vm_compute; reflexivity).
  split; [exact H|]. split; [exact Ha|].
  destruct (one_read_loop defaultCfg sampleMarshal sampleBackoff H)
    as (_ & _ & _ & T & _).
  apply T. right. rewrite Ha. discriminate.
Defined.
